(** * bc-bytewords: a shallow embedding of [src/bc-bytewords.c]

    The codec renders a byte buffer as a sequence of four-letter words (or of
    two-letter codes), with a trailing CRC-32, and reads such text back.

    Modelling conventions.
    - [uint8_t] is [Byte.byte]; [char] is [ascii], read as a value in 0..255;
      [int] and [int16_t] values are [Z]; [size_t] lengths and offsets are
      [nat] (allocation is assumed to succeed and no length wraps around).
    - A [const char*] is the list of characters stored from the pointer on.
      [strlen] finds the first NUL; a list without NUL stands for a buffer
      whose terminator follows its last character.
    - A pointer that walks a string ([in_p]) is the list of characters between
      it and [end_p]; a pointer that walks an output buffer ([out_p]) is the
      list of bytes written below it.
    - [decode] mallocs [out_max_size] bytes; a write at or beyond that offset
      has no defined behaviour in C and ends the run as [Overrun].
    - The out-parameters [out_buf] and [out_len] are passed in and returned,
      so that what a call leaves in them can be stated.
    - [tolower] is the one of the "C" locale; a character above 127 falls
      outside the lookup table whether [char] is signed or not.
    - [crc32] comes from [crc32.h], which is not part of the translated file:
      the codec is parameterised by it, and [crc32_ieee] below is the function
      the format names. *)

From Stdlib Require Import String Ascii List NArith ZArith Bool Lia.
From Stdlib Require Import Strings.Byte.
Import ListNotations.

#[local] Open Scope Z_scope.

(** ** The word table (line 15) *)

Definition bytewords : list ascii := list_ascii_of_string
  "ableacidalsoapexaquaarchatomauntawayaxisbackbaldbarnbeltbetabiasbluebodybragbrewbulbbuzzcalmcashcatschefcityclawcodecolacookcostcruxcurlcuspcyandarkdatadaysdelidicedietdoordowndrawdropdrumdulldutyeacheasyechoedgeepicevenexamexiteyesfactfairfernfigsfilmfishfizzflapflewfluxfoxyfreefrogfuelfundgalagamegeargemsgiftgirlglowgoodgraygrimgurugushgyrohalfhanghardhawkheathelphighhillholyhopehornhutsicedideaidleinchinkyintoirisironitemjadejazzjoinjoltjowljudojugsjumpjunkjurykeepkenokeptkeyskickkilnkingkitekiwiknoblamblavalazyleaflegsliarlistlimplionlogoloudloveluaulucklungmainmanymathmazememomenumeowmildmintmissmonknailnavyneednewsnextnoonnotenumbobeyoboeomitonyxopenovalowlspaidpartpeckplaypluspoempoolposepuffpumapurrquadquizraceramprealredorichroadrockroofrubyruinrunsrustsafesagascarsetssilkskewslotsoapsolosongstubsurfswantacotasktaxitenttiedtimetinytoiltombtoystriptunatwinuglyundouniturgeuservastveryvetovialvibeviewvisavoidvowswallwandwarmwaspwavewaxywebswhatwhenwhizwolfworkyankyawnyellyogayurtzapszestzinczonezoomzero".

Definition NUL : ascii := Ascii.zero.

(** [p[i]] for a [char*] [p], as the [int] the expression promotes to. *)
Definition char_at (p : list ascii) (i : nat) : Z :=
  Z.of_nat (nat_of_ascii (nth i p NUL)).

Definition tolower (c : Z) : Z :=
  if (65 <=? c) && (c <=? 90) then c + 32 else c.

Definition letter_a : Z := 97.

(** ** [decode_word] (lines 21-69) *)

Definition dim : Z := 26.

(** [l[offset] = v] for an offset inside [l], the only ones the code uses. *)
Fixpoint store {A : Type} (l : list A) (offset : nat) (v : A) : list A :=
  match l, offset with
  | [], _ => []
  | _ :: l', O => v :: l'
  | a :: l', S n => a :: store l' n v
  end.

(** Lines 29-40: the lookup table, filled with -1 and then with the index of
    every word at the coordinates of its first and last letters. *)
Definition array_fill (array : list Z) (i : nat) : list Z :=
  let byteword := skipn (i * 4) bytewords in
  let x := char_at byteword 0 - letter_a in
  let y := char_at byteword 3 - letter_a in
  let offset := y * dim + x in
  store array (Z.to_nat offset) (Z.of_nat i).

Definition array_build : list Z :=
  fold_left array_fill (seq 0 256) (repeat (-1) (Z.to_nat (dim * dim))).

Definition array : list Z := Eval vm_compute in array_build.

Definition uint8_of_Z (v : Z) : byte :=
  match Byte.of_N (Z.to_N (v mod 256)) with
  | Some b => b
  | None => x00
  end.

Definition decode_word (in_word : list ascii) (word_len : nat) : option byte :=
  let x := tolower (char_at in_word 0) - letter_a in
  let y := tolower (char_at in_word (if Nat.eqb word_len 4 then 3 else 1)) - letter_a in
  if negb ((0 <=? x) && (x <? dim) && (0 <=? y) && (y <? dim)) then None
  else
    let offset := y * dim + x in
    let value := nth (Z.to_nat offset) array (-1) in
    if value =? -1 then None
    else if Nat.eqb word_len 4
              && (let byteword := skipn (Z.to_nat (value * 4)) bytewords in
                  let c1 := tolower (char_at in_word 1) in
                  let c2 := tolower (char_at in_word 2) in
                  negb (c1 =? char_at byteword 1) || negb (c2 =? char_at byteword 2))
    then None
    else Some (uint8_of_Z value).

(** ** Checksum (lines 17-19) *)

Definition uint8_of_N (n : N) : byte :=
  match Byte.of_N (n mod 256)%N with
  | Some b => b
  | None => x00
  end.

(** The four bytes that [htonl v] occupies in memory: [v], most significant
    byte first, whatever the byte order of the host. *)
Definition htonl_bytes (v : N) : list byte :=
  let v := (v mod 2 ^ 32)%N in
  [uint8_of_N (N.shiftr v 24); uint8_of_N (N.shiftr v 16);
   uint8_of_N (N.shiftr v 8); uint8_of_N v].

(** Modelled from the spec: [crc32] of [crc32.h] is not among the sources; the
    spec calls it the standard 32-bit cyclic redundancy check of common
    archive and network implementations: reflected polynomial [0xEDB88320],
    initial value and final complement [0xFFFFFFFF]. *)
Definition crc32_bit (c : N) : N :=
  if N.odd c then N.lxor (N.shiftr c 1) 0xEDB88320 else N.shiftr c 1.

Definition crc32_byte (c : N) (b : byte) : N :=
  Nat.iter 8 crc32_bit (N.lxor c (Byte.to_N b)).

Definition crc32_ieee (bytes : list byte) : N :=
  N.lxor (fold_left crc32_byte bytes 0xFFFFFFFF%N) 0xFFFFFFFF.

(** ** Words (lines 71-81) *)

Definition get_word (index : byte) : list ascii :=
  firstn 4 (skipn (Byte.to_nat index * 4) bytewords) ++ [NUL].

Definition get_minimal_word (index : byte) : list ascii :=
  let p := skipn (Byte.to_nat index * 4) bytewords in
  [nth 0 p NUL; nth 3 p NUL; NUL].

(** ** Styles ([bw_style] of [bc-bytewords.h], as the two [switch]es use it) *)

Inductive bw_style : Set := bw_standard | bw_uri | bw_minimal.

(** ** Results of [decode] *)

(** [decode] returns [false] on every failure; the model keeps the place. *)
Inductive failure : Set :=
| TooShort          (* lines 151 and 171-173 *)
| InvalidWord       (* lines 160-162 *)
| ChecksumMismatch. (* lines 178-180 *)

Inductive status : Set :=
| Success                (* [return true] *)
| Failure (e : failure)  (* [return false] *)
| Overrun                (* a write past the end of [buf]: no defined result *)
| OutOfFuel.             (* the loop did not end within the given fuel *)

(** What the caller's [*out_buf] and [*out_len] hold. *)
Record outputs : Set := mk_outputs { out_buf : list byte; out_len : nat }.

(** The payload a caller reads after a [true] return. *)
Definition payload (o : outputs) : list byte := firstn (out_len o) (out_buf o).

Definition returned_payload (r : status * outputs) : option (list byte) :=
  match fst r with
  | Success => Some (payload (snd r))
  | _ => None
  end.

Inductive scan_result : Set :=
| ScanEnd (buf : list byte) (in_p : list ascii)
| ScanBadWord
| ScanOverrun
| ScanFuel.

Fixpoint strlen (p : list ascii) : nat :=
  match p with
  | [] => O
  | c :: p' => if Ascii.eqb c NUL then O else S (strlen p')
  end.

(** [memcmp a b n == 0] *)
Fixpoint memcmp_eq (a b : list byte) (n : nat) {struct n} : bool :=
  match n with
  | O => true
  | S n' =>
      match a, b with
      | x :: a', y :: b' => Byte.eqb x y && memcmp_eq a' b' n'
      | _, _ => false
      end
  end.

(** Lines 165-167: step over one separator, if the style has one and it is
    the next character. *)
Definition skip_separator (separator : ascii) (in_p : list ascii) : list ascii :=
  match in_p with
  | c :: in_p' =>
      if negb (Ascii.eqb separator NUL) && Ascii.eqb c separator
      then in_p' else in_p
  | [] => in_p
  end.

Section Codec.

Variable crc32 : list byte -> N.

Definition bytewords_hash (bytes : list byte) : list byte :=
  htonl_bytes (crc32 bytes).

(** *** Encoding (lines 83-146) *)

(** The loop of [encode]: each round writes the five bytes of [get_word] at
    [out_p], replaces the fifth by the separator unless the word is the
    last, and moves [out_p] by five. *)
Fixpoint encode_loop (in_p : list byte) (i in_len : nat) (separator : ascii)
  : list ascii :=
  match in_p with
  | [] => []
  | index :: in_p' =>
      let word := get_word index in
      let word := if Nat.ltb i (in_len - 1) then store word 4 separator else word in
      (word ++ encode_loop in_p' (S i) in_len separator)%list
  end.

Definition encode (in_buf : list byte) (separator : ascii) : list ascii :=
  encode_loop in_buf 0 (length in_buf) separator.

Definition add_crc (in_buf : list byte) : list byte :=
  (in_buf ++ bytewords_hash in_buf)%list.

Definition encode_with_separator (in_buf : list byte) (separator : ascii)
  : list ascii :=
  encode (add_crc in_buf) separator.

(** The loop of [encode_minimal]: [get_minimal_word] writes three bytes at
    [out_p] and [out_p] moves by two, so the third is overwritten by the
    next round or by the final [*out_p = 0]. *)
Fixpoint encode_minimal_loop (in_p : list byte) : list ascii :=
  match in_p with
  | [] => []
  | index :: in_p' =>
      (firstn 2 (get_minimal_word index) ++ encode_minimal_loop in_p')%list
  end.

Definition encode_minimal (in_buf : list byte) : list ascii :=
  (encode_minimal_loop (add_crc in_buf) ++ [NUL])%list.

Definition bytewords_encode (style : bw_style) (in_buf : list byte)
  : list ascii :=
  match style with
  | bw_standard => encode_with_separator in_buf " "%char
  | bw_uri => encode_with_separator in_buf "-"%char
  | bw_minimal => encode_minimal in_buf
  end.

(** *** Decoding (lines 148-202) *)

(** The [while] loop of lines 158-168. [in_p] holds the characters from the
    pointer to [end_p]; [buf] the bytes below [out_p]. *)
Fixpoint scan (fuel : nat) (in_p : list ascii) (buf : list byte)
  (out_max_size : nat) (separator : ascii) (word_len : nat) : scan_result :=
  match in_p with
  | [] => ScanEnd buf in_p
  | _ :: _ =>
      if Nat.leb word_len (length in_p) then
        match fuel with
        | O => ScanFuel
        | S fuel' =>
            match decode_word in_p word_len with
            | None => ScanBadWord
            | Some index =>
                if Nat.ltb (length buf) out_max_size then
                  scan fuel' (skip_separator separator (skipn word_len in_p))
                       (buf ++ [index])%list out_max_size separator word_len
                else ScanOverrun
            end
        end
      else ScanEnd buf in_p
  end.

Definition decode (in_string : list ascii) (out : outputs)
  (separator : ascii) (word_len : nat) : status * outputs :=
  let in_string_len := strlen in_string in
  let out_max_size := (in_string_len / (word_len + 1) + 1)%nat in
  if Nat.ltb out_max_size 5 then (Failure TooShort, out)
  else
    match scan in_string_len (firstn in_string_len in_string) []
               out_max_size separator word_len with
    | ScanBadWord => (Failure InvalidWord, out)
    | ScanOverrun => (Overrun, out)
    | ScanFuel => (OutOfFuel, out)
    | ScanEnd buf _ =>
        let buf_len := length buf in
        if Nat.ltb buf_len 5 then (Failure TooShort, out)
        else
          let body_len := (buf_len - 4)%nat in
          let buf_checksum := skipn body_len buf in
          let checksum := bytewords_hash (firstn body_len buf) in
          if negb (memcmp_eq checksum buf_checksum 4)
          then (Failure ChecksumMismatch, out)
          else (Success, {| out_buf := buf; out_len := body_len |})
    end.

Definition bytewords_decode (style : bw_style) (in_string : list ascii)
  (out : outputs) : status * outputs :=
  match style with
  | bw_standard => decode in_string out " "%char 4
  | bw_uri => decode in_string out "-"%char 4
  | bw_minimal => decode in_string out NUL 2
  end.

End Codec.

(** ** Vocabulary of the statements *)

(** The arguments that [bytewords_decode] passes to [decode]. *)
Definition separator_of (style : bw_style) : ascii :=
  match style with
  | bw_standard => " "%char
  | bw_uri => "-"%char
  | bw_minimal => NUL
  end.

Definition word_len_of (style : bw_style) : nat :=
  match style with
  | bw_minimal => 2
  | _ => 4
  end.

(** The characters of the C string at [p]. *)
Definition c_text (p : list ascii) : list ascii := firstn (strlen p) p.

(** The four letters that [get_word] writes before its NUL, and the two that
    [get_minimal_word] does. *)
Definition word_chars (index : byte) : list ascii := firstn 4 (get_word index).

Definition minimal_chars (index : byte) : list ascii :=
  firstn 2 (get_minimal_word index).

(** Words joined by a separator. *)
Fixpoint words_text (separator : ascii) (bytes : list byte) : list ascii :=
  match bytes with
  | [] => []
  | index :: bytes' =>
      match bytes' with
      | [] => word_chars index
      | _ :: _ => word_chars index ++ separator :: words_text separator bytes'
      end
  end.

Definition lowercase (c : ascii) : bool :=
  (97 <=? Z.of_nat (nat_of_ascii c)) && (Z.of_nat (nat_of_ascii c) <=? 122).

(** Entry [i] of the word table. *)
Definition entry (i : nat) : list ascii := firstn 4 (skipn (i * 4) bytewords).

Definition lit (x : string) : list ascii := list_ascii_of_string x.

Definition no_outputs : outputs := {| out_buf := []; out_len := 0 |}.

(** The first and the last letter of entries [i] and [j] agree. *)
Definition same_endpoints (i j : nat) : bool :=
  Ascii.eqb (nth 0 (entry i) NUL) (nth 0 (entry j) NUL)
  && Ascii.eqb (nth 3 (entry i) NUL) (nth 3 (entry j) NUL).

(** The position of the last letter of a token of [word_len] letters, as line
    46 has it. *)
Definition last_pos (word_len : nat) : nat := if Nat.eqb word_len 4 then 3%nat else 1%nat.

(** Coordinate of the letter at position [k] of a token. *)
Definition coord (w : list ascii) (k : nat) : Z := tolower (char_at w k) - letter_a.

Definition in_grid (x y : Z) : Prop := 0 <= x < dim /\ 0 <= y < dim.

(** The entry of the lookup table at column [x] of row [y]. *)
Definition grid (x y : Z) : Z := nth (Z.to_nat (y * dim + x)) array (-1).

(** A string without NUL. *)
Definition nul_free (t : list ascii) : Prop := Forall (fun c => c <> NUL) t.

(** Two strings that differ in letter case only. *)
Definition same_letters (s s' : list ascii) : Prop :=
  Forall2 (fun c c' => tolower (char_at [c] 0) = tolower (char_at [c'] 0)) s s'.

(** A scan result without the characters it left unread. *)
Definition resolved (r : scan_result) : scan_result :=
  match r with
  | ScanEnd buf _ => ScanEnd buf []
  | _ => r
  end.

(** A character in its upper case. *)
Definition upper (c : ascii) : ascii :=
  if lowercase c then ascii_of_nat (nat_of_ascii c - 32) else c.

(** The number a sequence of bytes denotes, most significant byte first. *)
Definition big_endian (bytes : list byte) : N :=
  fold_left (fun acc b => (acc * 256 + Byte.to_N b)%N) bytes 0%N.

(** Words of which each is followed by the separator or not, as its flag
    says. *)
Fixpoint loose_text (separator : ascii) (items : list (byte * bool))
  : list ascii :=
  match items with
  | [] => []
  | (index, followed) :: items' =>
      word_chars index ++ (if followed then [separator] else [])
        ++ loose_text separator items'
  end.

Definition separators (items : list (byte * bool)) : nat :=
  length (filter snd items).

(** * Properties *)

Lemma array_built : array = array_build.
Proof. vm_compute. reflexivity. Qed.

Lemma word_chars_decodes (b : byte) (rest : list ascii) :
  decode_word (word_chars b ++ rest) 4 = Some b.
Proof. destruct b; vm_compute; reflexivity. Qed.

Lemma minimal_chars_decodes (b : byte) (rest : list ascii) :
  decode_word (minimal_chars b ++ rest) 2 = Some b.
Proof. destruct b; vm_compute; reflexivity. Qed.

(** ** The word table *)

Section Table.

Lemma word_chars_entry (b : byte) : word_chars b = entry (Byte.to_nat b).
Proof. destruct b; vm_compute; reflexivity. Qed.

Lemma word_chars_length (b : byte) : length (word_chars b) = 4%nat.
Proof. destruct b; vm_compute; reflexivity. Qed.

Lemma get_word_chars (b : byte) : get_word b = (word_chars b ++ [NUL])%list.
Proof. destruct b; vm_compute; reflexivity. Qed.

Lemma word_chars_lowercase (b : byte) : forallb lowercase (word_chars b) = true.
Proof. destruct b; vm_compute; reflexivity. Qed.

Lemma minimal_chars_length (b : byte) : length (minimal_chars b) = 2%nat.
Proof. reflexivity. Qed.

Lemma minimal_chars_lowercase (b : byte) :
  forallb lowercase (minimal_chars b) = true.
Proof. destruct b; vm_compute; reflexivity. Qed.

Lemma byte_below (i : nat) :
  (i < 256)%nat -> exists b : byte, Byte.to_nat b = i.
Proof.
  intros Hi. destruct (Byte.of_nat i) as [b|] eqn:E.
  - exists b. now apply Byte.to_of_nat.
  - apply Byte.of_nat_None_iff in E. lia.
Qed.

Lemma endpoints_checked :
  forallb (fun i => forallb (fun j => implb (same_endpoints i j) (Nat.eqb i j))
                            (seq 0 256)) (seq 0 256) = true.
Proof. vm_compute. reflexivity. Qed.

Lemma entry_shape (i : nat) :
  (i < 256)%nat ->
  length (entry i) = 4%nat /\ forallb lowercase (entry i) = true.
Proof.
  intros Hi. destruct (byte_below i Hi) as [b <-].
  rewrite <- word_chars_entry.
  split; [apply word_chars_length | apply word_chars_lowercase].
Qed.

Lemma endpoints_unique (i j : nat) :
  (i < 256)%nat -> (j < 256)%nat ->
  nth 0 (entry i) NUL = nth 0 (entry j) NUL ->
  nth 3 (entry i) NUL = nth 3 (entry j) NUL ->
  i = j.
Proof.
  intros Hi Hj H0 H3.
  pose proof endpoints_checked as C.
  rewrite forallb_forall in C.
  specialize (C i). rewrite in_seq in C. specialize (C ltac:(lia)).
  rewrite forallb_forall in C.
  specialize (C j). rewrite in_seq in C. specialize (C ltac:(lia)).
  unfold same_endpoints in C. rewrite H0, H3, !Ascii.eqb_refl in C.
  now apply Nat.eqb_eq.
Qed.

(** C9. The word table holds exactly 256 entries of four lowercase letters,
    and no two entries have both the same first and the same last letter. *)
Theorem word_table_invariant :
  length bytewords = (256 * 4)%nat /\
  (forall i, (i < 256)%nat ->
     length (entry i) = 4%nat /\ forallb lowercase (entry i) = true) /\
  (forall i j, (i < 256)%nat -> (j < 256)%nat ->
     nth 0 (entry i) NUL = nth 0 (entry j) NUL ->
     nth 3 (entry i) NUL = nth 3 (entry j) NUL ->
     i = j).
Proof.
  split; [vm_compute; reflexivity|].
  split; [exact entry_shape | exact endpoints_unique].
Qed.

Lemma word_table_invariant_witness :
  (length (entry 255) = 4%nat /\ forallb lowercase (entry 255) = true) /\
  255%nat = 255%nat.
Proof.
  destruct word_table_invariant as [_ [Hshape Huniq]].
  split.
  - apply (Hshape 255%nat). lia.
  - apply (Huniq 255%nat 255%nat); [lia | lia | reflexivity | reflexivity].
Defined.

End Table.

(** ** Token resolution *)

Section Resolution.

Lemma array_values :
  forallb (fun v => (v =? -1) || ((0 <=? v) && (v <? 256))) array = true.
Proof. vm_compute. reflexivity. Qed.

Lemma grid_range (x y : Z) :
  grid x y = -1 \/ 0 <= grid x y < 256.
Proof.
  unfold grid. set (k := Z.to_nat (y * dim + x)).
  destruct (Nat.lt_ge_cases k (length array)) as [Hk | Hk].
  - pose proof array_values as A. rewrite forallb_forall in A.
    specialize (A _ (nth_In array (-1) Hk)). lia.
  - left. now apply nth_overflow.
Qed.

Lemma uint8_of_Z_value (v : Z) :
  0 <= v < 256 -> Z.of_nat (Byte.to_nat (uint8_of_Z v)) = v.
Proof.
  intros Hv. unfold uint8_of_Z. rewrite Z.mod_small by lia.
  destruct (Byte.of_N (Z.to_N v)) as [b|] eqn:E.
  - apply Byte.to_of_N in E. rewrite Byte.to_nat_via_N, E. lia.
  - apply Byte.of_N_None_iff in E. lia.
Qed.

Lemma uint8_of_Z_byte (b : byte) : uint8_of_Z (Z.of_nat (Byte.to_nat b)) = b.
Proof. destruct b; vm_compute; reflexivity. Qed.

Lemma char_at_entry (i k : nat) :
  (k < 4)%nat ->
  char_at (entry i) k = char_at (skipn (Z.to_nat (Z.of_nat i * 4)) bytewords) k.
Proof.
  intros Hk. unfold char_at, entry. rewrite nth_firstn.
  apply Nat.ltb_lt in Hk. rewrite Hk.
  now replace (Z.to_nat (Z.of_nat i * 4)) with (i * 4)%nat by lia.
Qed.

Lemma in_grid_dec (x y : Z) :
  (0 <=? x) && (x <? dim) && (0 <=? y) && (y <? dim) = true <-> in_grid x y.
Proof. unfold in_grid. lia. Qed.

Lemma decode_word_case (w w' : list ascii) (word_len : nat) :
  (forall k, tolower (char_at w k) = tolower (char_at w' k)) ->
  decode_word w word_len = decode_word w' word_len.
Proof.
  intros H. unfold decode_word.
  rewrite (H 0%nat), (H 1%nat), (H 2%nat), (H (if Nat.eqb word_len 4 then 3 else 1)%nat).
  reflexivity.
Qed.

Lemma decode_word_4 (w : list ascii) (i : byte) :
  decode_word w 4 = Some i <->
  in_grid (coord w 0) (coord w 3) /\
  grid (coord w 0) (coord w 3) = Z.of_nat (Byte.to_nat i) /\
  tolower (char_at w 1) = char_at (entry (Byte.to_nat i)) 1 /\
  tolower (char_at w 2) = char_at (entry (Byte.to_nat i)) 2.
Proof.
  unfold decode_word. simpl Nat.eqb. cbv iota. fold (coord w 0) (coord w 3).
  fold (grid (coord w 0) (coord w 3)).
  set (x := coord w 0). set (y := coord w 3). set (v := grid x y).
  pose proof (in_grid_dec x y) as G.
  pose proof (grid_range x y) as R. fold v in R.
  split.
  - destruct ((0 <=? x) && (x <? dim) && (0 <=? y) && (y <? dim)) eqn:E;
      simpl; [|discriminate].
    destruct (v =? -1) eqn:Ev; [discriminate|].
    assert (Hv : 0 <= v < 256) by lia.
    destruct (negb _ || negb _) eqn:M; [discriminate|].
    intros [= <-].
    pose proof (uint8_of_Z_value v Hv) as U.
    apply orb_false_elim in M. destruct M as [M1 M2].
    apply negb_false_iff, Z.eqb_eq in M1, M2.
    rewrite !char_at_entry, U by lia.
    repeat split; try tauto; lia.
  - intros (Hg & Hv & M1 & M2).
    apply G in Hg. rewrite Hg. simpl. rewrite Hv.
    pose proof (Byte.to_nat_bounded i).
    replace (Z.of_nat (Byte.to_nat i) =? -1) with false by lia.
    rewrite <- !char_at_entry, M1, M2, !Z.eqb_refl by lia.
    simpl. now rewrite uint8_of_Z_byte.
Qed.

Lemma decode_word_out_of_range (w : list ascii) (word_len : nat) :
  ~ in_grid (coord w 0) (coord w (last_pos word_len)) ->
  decode_word w word_len = None.
Proof.
  intros H. unfold decode_word.
  fold (last_pos word_len) (coord w 0) (coord w (last_pos word_len)).
  rewrite <- in_grid_dec in H. apply not_true_is_false in H.
  now rewrite H.
Qed.

Lemma decode_word_absent (w : list ascii) (word_len : nat) :
  grid (coord w 0) (coord w (last_pos word_len)) = -1 ->
  decode_word w word_len = None.
Proof.
  intros H. unfold decode_word.
  fold (last_pos word_len) (coord w 0) (coord w (last_pos word_len)).
  fold (grid (coord w 0) (coord w (last_pos word_len))).
  rewrite H. simpl. now destruct (negb _).
Qed.

Lemma to_nat_inj (i j : byte) : Byte.to_nat i = Byte.to_nat j -> i = j.
Proof.
  intros H. pose proof (Byte.of_to_nat i) as Hi.
  rewrite H, Byte.of_to_nat in Hi. congruence.
Qed.

Lemma decode_word_mismatch (w : list ascii) (i : byte) :
  grid (coord w 0) (coord w 3) = Z.of_nat (Byte.to_nat i) ->
  tolower (char_at w 1) <> char_at (entry (Byte.to_nat i)) 1 \/
  tolower (char_at w 2) <> char_at (entry (Byte.to_nat i)) 2 ->
  decode_word w 4 = None.
Proof.
  intros Hv M. destruct (decode_word w 4) as [j|] eqn:E; [|reflexivity].
  apply decode_word_4 in E. destruct E as (_ & Hj & M1 & M2).
  assert (j = i) by (apply to_nat_inj; lia). subst j. tauto.
Qed.

(** C7. Token resolution ignores letter case. A four-letter token resolves
    to index [i] exactly when its first and last letters are coordinates of
    the lookup table, the table holds [i] there, and its two middle letters
    are, up to case, those of table entry [i]. An endpoint outside the
    table, an absent entry, or a middle letter that differs makes the
    resolution fail. *)
Theorem decode_word_resolution :
  (forall w w' word_len,
      (forall k, tolower (char_at w k) = tolower (char_at w' k)) ->
      decode_word w word_len = decode_word w' word_len) /\
  (forall w i,
      decode_word w 4 = Some i <->
      in_grid (coord w 0) (coord w 3) /\
      grid (coord w 0) (coord w 3) = Z.of_nat (Byte.to_nat i) /\
      tolower (char_at w 1) = char_at (entry (Byte.to_nat i)) 1 /\
      tolower (char_at w 2) = char_at (entry (Byte.to_nat i)) 2) /\
  (forall w word_len,
      ~ in_grid (coord w 0) (coord w (last_pos word_len)) ->
      decode_word w word_len = None) /\
  (forall w word_len,
      grid (coord w 0) (coord w (last_pos word_len)) = -1 ->
      decode_word w word_len = None) /\
  (forall w i,
      grid (coord w 0) (coord w 3) = Z.of_nat (Byte.to_nat i) ->
      tolower (char_at w 1) <> char_at (entry (Byte.to_nat i)) 1 \/
      tolower (char_at w 2) <> char_at (entry (Byte.to_nat i)) 2 ->
      decode_word w 4 = None).
Proof.
  split; [|split; [|split; [|split]]].
  - exact decode_word_case.
  - exact decode_word_4.
  - exact decode_word_out_of_range.
  - exact decode_word_absent.
  - exact decode_word_mismatch.
Qed.

Lemma decode_word_resolution_witness :
  decode_word (lit "ZeRo") 4 = decode_word (lit "zero") 4 /\
  decode_word (lit "z{") 2 = None /\
  decode_word (lit "zzzz") 4 = None /\
  decode_word (lit "zoro") 4 = None.
Proof.
  destruct decode_word_resolution as (Hcase & _ & Hrange & Habsent & Hmiddle).
  split; [|split; [|split]].
  - apply (Hcase (lit "ZeRo") (lit "zero") 4%nat).
    intros k. do 4 (destruct k as [|k]; [reflexivity|]). destruct k; reflexivity.
  - apply (Hrange (lit "z{") 2%nat). vm_compute. intros [_ [_ H]]. discriminate H.
  - apply (Habsent (lit "zzzz") 4%nat). vm_compute. reflexivity.
  - apply (Hmiddle (lit "zoro") xff); [vm_compute; reflexivity|].
    left. vm_compute. discriminate.
Defined.

End Resolution.

(** ** Encoder output *)

Section Encoding.

Variable crc32 : list byte -> N.

Lemma strlen_app (t r : list ascii) :
  nul_free t -> strlen (t ++ r) = (length t + strlen r)%nat.
Proof.
  induction 1 as [|c t Hc _ IH]; simpl; [reflexivity|].
  apply Ascii.eqb_neq in Hc. now rewrite Hc, IH.
Qed.

Lemma c_text_app (t r : list ascii) :
  nul_free t -> c_text (t ++ r) = (t ++ c_text r)%list.
Proof.
  intros H. unfold c_text. rewrite strlen_app by assumption.
  now rewrite firstn_app_2.
Qed.

Lemma c_text_length (p : list ascii) : length (c_text p) = strlen p.
Proof.
  unfold c_text. induction p as [|c p IH]; simpl; [reflexivity|].
  destruct (Ascii.eqb c NUL); simpl; congruence.
Qed.

Lemma c_text_nul_free (p : list ascii) : nul_free (c_text p).
Proof.
  unfold c_text. induction p as [|c p IH]; simpl; [constructor|].
  destruct (Ascii.eqb c NUL) eqn:E; simpl; constructor; [|assumption].
  now apply Ascii.eqb_neq.
Qed.

Lemma lowercase_nul_free (t : list ascii) :
  forallb lowercase t = true -> nul_free t.
Proof.
  intros H. apply Forall_forall. intros c Hc.
  rewrite forallb_forall in H. specialize (H c Hc).
  intros ->. discriminate H.
Qed.

Lemma word_chars_nul_free (b : byte) : nul_free (word_chars b).
Proof. apply lowercase_nul_free, word_chars_lowercase. Qed.

Lemma words_text_cons (separator : ascii) (b b' : byte) (bytes : list byte) :
  words_text separator (b :: b' :: bytes)
  = (word_chars b ++ separator :: words_text separator (b' :: bytes))%list.
Proof. reflexivity. Qed.

Lemma words_text_nul_free (separator : ascii) (bytes : list byte) :
  separator <> NUL -> nul_free (words_text separator bytes).
Proof.
  intros Hs. induction bytes as [|b [|b' bytes] IH].
  - constructor.
  - apply word_chars_nul_free.
  - rewrite words_text_cons. apply Forall_app. split.
    + apply word_chars_nul_free.
    + constructor; assumption.
Qed.

Lemma words_text_length (separator : ascii) (bytes : list byte) :
  length (words_text separator bytes) = (5 * length bytes - 1)%nat.
Proof.
  induction bytes as [|b [|b' bytes] IH].
  - reflexivity.
  - apply word_chars_length.
  - rewrite words_text_cons, length_app, word_chars_length.
    simpl length in *. lia.
Qed.

Lemma store_get_word (b : byte) (separator : ascii) :
  store (get_word b) 4 separator = (word_chars b ++ [separator])%list.
Proof. destruct b; vm_compute; reflexivity. Qed.

Lemma encode_loop_cons (separator : ascii) (b : byte) (in_p : list byte)
  (i in_len : nat) :
  encode_loop (b :: in_p) i in_len separator
  = ((if Nat.ltb i (in_len - 1) then store (get_word b) 4 separator
      else get_word b) ++ encode_loop in_p (S i) in_len separator)%list.
Proof. reflexivity. Qed.

Lemma encode_loop_text (separator : ascii) (in_p : list byte) :
  forall i in_len,
    in_p <> [] -> (i + length in_p)%nat = in_len ->
    encode_loop in_p i in_len separator
    = (words_text separator in_p ++ [NUL])%list.
Proof.
  induction in_p as [|b [|b' in_p] IH]; intros i in_len Hne Hlen.
  - contradiction.
  - simpl in *. replace (Nat.ltb i (in_len - 1)) with false
      by (symmetry; apply Nat.ltb_ge; lia).
    now rewrite app_nil_r, get_word_chars.
  - rewrite words_text_cons, encode_loop_cons.
    replace (Nat.ltb i (in_len - 1)) with true
      by (symmetry; apply Nat.ltb_lt; simpl in Hlen; lia).
    rewrite store_get_word, (IH (S i) in_len); [|discriminate|simpl in *; lia].
    now rewrite <- !app_assoc.
Qed.

Lemma bytewords_hash_length (bytes : list byte) :
  length (bytewords_hash crc32 bytes) = 4%nat.
Proof. reflexivity. Qed.

Lemma add_crc_length (in_buf : list byte) :
  length (add_crc crc32 in_buf) = (length in_buf + 4)%nat.
Proof. unfold add_crc. now rewrite length_app, bytewords_hash_length. Qed.

Lemma add_crc_nonempty (in_buf : list byte) : add_crc crc32 in_buf <> [].
Proof.
  intros H. apply (f_equal (@length byte)) in H.
  rewrite add_crc_length in H. simpl in H. lia.
Qed.

Lemma encode_with_separator_text (in_buf : list byte) (separator : ascii) :
  encode_with_separator crc32 in_buf separator
  = (words_text separator (add_crc crc32 in_buf) ++ [NUL])%list.
Proof.
  unfold encode_with_separator, encode.
  apply encode_loop_text; [apply add_crc_nonempty | reflexivity].
Qed.

Lemma encode_minimal_loop_nul_free (bytes : list byte) :
  nul_free (encode_minimal_loop bytes).
Proof.
  induction bytes as [|b bytes IH]; [constructor|].
  cbn [encode_minimal_loop]. apply Forall_app. split; [|assumption].
  apply lowercase_nul_free, minimal_chars_lowercase.
Qed.

Lemma encode_minimal_loop_length (bytes : list byte) :
  length (encode_minimal_loop bytes) = (2 * length bytes)%nat.
Proof.
  induction bytes as [|b bytes IH]; [reflexivity|].
  cbn [encode_minimal_loop]. rewrite length_app. simpl length. lia.
Qed.

Lemma strlen_terminated (t : list ascii) :
  nul_free t -> strlen (t ++ [NUL]) = length t.
Proof. intros H. rewrite strlen_app by assumption. simpl. lia. Qed.

(** C8. With [N] the payload length plus four, the encoder's string has
    [5 * N - 1] characters in the standard and uri styles and [2 * N] in the
    minimal style. *)
Theorem encoded_length (in_buf : list byte) :
  let N := (length in_buf + 4)%nat in
  strlen (bytewords_encode crc32 bw_standard in_buf) = (5 * N - 1)%nat /\
  strlen (bytewords_encode crc32 bw_uri in_buf) = (5 * N - 1)%nat /\
  strlen (bytewords_encode crc32 bw_minimal in_buf) = (2 * N)%nat.
Proof.
  intros N. unfold bytewords_encode, encode_minimal.
  rewrite !encode_with_separator_text.
  rewrite !strlen_terminated, !words_text_length, encode_minimal_loop_length,
    add_crc_length;
    try apply encode_minimal_loop_nul_free;
    try (apply words_text_nul_free; discriminate).
  auto.
Qed.

End Encoding.

(** ** The token scan *)

Section Scan.

Variables (out_max_size : nat) (separator : ascii) (word_len : nat).

Lemma scan_end (fuel : nat) (in_p : list ascii) (buf : list byte) :
  (length in_p < word_len)%nat ->
  scan fuel in_p buf out_max_size separator word_len = ScanEnd buf in_p.
Proof.
  intros H. apply Nat.leb_gt in H.
  destruct fuel, in_p; cbn [scan]; try reflexivity; now rewrite H.
Qed.

Lemma scan_step (fuel : nat) (in_p : list ascii) (buf : list byte) :
  in_p <> [] -> (word_len <= length in_p)%nat ->
  scan (S fuel) in_p buf out_max_size separator word_len
  = match decode_word in_p word_len with
    | None => ScanBadWord
    | Some index =>
        if Nat.ltb (length buf) out_max_size
        then scan fuel (skip_separator separator (skipn word_len in_p))
                  (buf ++ [index]) out_max_size separator word_len
        else ScanOverrun
    end.
Proof.
  intros Hne H. apply Nat.leb_le in H.
  destruct in_p; [contradiction|]. cbn [scan]. now rewrite H.
Qed.

Lemma skip_separator_length (in_p : list ascii) :
  (length (skip_separator separator in_p) <= length in_p)%nat.
Proof.
  destruct in_p as [|c in_p]; simpl; [lia|].
  destruct (negb _ && _); simpl; lia.
Qed.

Lemma skip_separator_here (in_p : list ascii) :
  separator <> NUL ->
  skip_separator separator (separator :: in_p) = in_p.
Proof.
  intros H. apply Ascii.eqb_neq in H. simpl.
  now rewrite H, Ascii.eqb_refl.
Qed.

(** The loop ends within [length in_p] rounds. *)
Lemma scan_fuel_enough (fuel : nat) :
  forall in_p buf,
    (0 < word_len)%nat -> (length in_p <= fuel)%nat ->
    scan fuel in_p buf out_max_size separator word_len <> ScanFuel.
Proof.
  induction fuel as [|fuel IH]; intros in_p buf Hw Hf.
  - rewrite scan_end by lia. discriminate.
  - destruct (Nat.lt_ge_cases (length in_p) word_len) as [Hl | Hl].
    + rewrite scan_end by assumption. discriminate.
    + rewrite scan_step; [|intros ->; simpl in Hl; lia|assumption].
      destruct (decode_word in_p word_len); [|discriminate].
      destruct (Nat.ltb _ _); [|discriminate].
      apply IH; [assumption|].
      pose proof (skip_separator_length (skipn word_len in_p)).
      rewrite length_skipn in *. lia.
Qed.

Lemma scan_buf_grows (fuel : nat) :
  forall in_p buf buf' rest,
    scan fuel in_p buf out_max_size separator word_len = ScanEnd buf' rest ->
    (length buf <= length buf')%nat.
Proof.
  induction fuel as [|fuel IH]; intros in_p buf buf' rest.
  - destruct in_p; cbn [scan]; [intros [= <- _]; lia|].
    destruct (Nat.leb _ _); [discriminate|intros [= <- _]; lia].
  - destruct in_p as [|c in_p]; cbn [scan]; [intros [= <- _]; lia|].
    destruct (Nat.leb _ _); [|intros [= <- _]; lia].
    destruct (decode_word _ _); [|discriminate].
    destruct (Nat.ltb _ _); [|discriminate].
    intros H. apply IH in H. rewrite length_app in H. simpl in H. lia.
Qed.

End Scan.

Section ScanStable.

Variables (separator : ascii) (word_len : nat).

(** What a finished scan resolved depends neither on the fuel nor on the
    capacity it ran with, as long as both suffice. *)
Lemma scan_stable (fuel : nat) :
  forall cap in_p buf buf' rest fuel' cap',
    scan fuel in_p buf cap separator word_len = ScanEnd buf' rest ->
    (0 < word_len)%nat ->
    (length in_p <= fuel')%nat -> (length buf' <= cap')%nat ->
    scan fuel' in_p buf cap' separator word_len = ScanEnd buf' rest.
Proof.
  induction fuel as [|fuel IH]; intros cap in_p buf buf' rest fuel' cap' H Hw Hf Hc.
  - destruct (Nat.lt_ge_cases (length in_p) word_len) as [Hl | Hl].
    + rewrite scan_end in * by assumption. assumption.
    + exfalso. destruct in_p; [simpl in Hl; lia|]. cbn [scan] in H.
      apply Nat.leb_le in Hl. rewrite Hl in H. discriminate.
  - destruct (Nat.lt_ge_cases (length in_p) word_len) as [Hl | Hl].
    + rewrite scan_end in * by assumption. assumption.
    + assert (Hne : in_p <> []) by (intros ->; simpl in Hl; lia).
      rewrite scan_step in H by assumption.
      destruct fuel' as [|fuel']; [lia|].
      rewrite scan_step by assumption.
      destruct (decode_word in_p word_len) as [index|]; [|discriminate].
      destruct (Nat.ltb (length buf) cap) eqn:E; [|discriminate].
      pose proof (scan_buf_grows _ _ _ _ _ _ _ _ H) as G.
      rewrite length_app in G. simpl in G.
      replace (Nat.ltb (length buf) cap') with true
        by (symmetry; apply Nat.ltb_lt; lia).
      apply (IH cap); try assumption.
      pose proof (skip_separator_length separator (skipn word_len in_p)).
      rewrite length_skipn in *. lia.
Qed.

End ScanStable.

(** ** Decoding *)

Section Decoding.

Variable crc32 : list byte -> N.

Lemma bytewords_decode_decode (style : bw_style) (in_string : list ascii)
  (out : outputs) :
  bytewords_decode crc32 style in_string out
  = decode crc32 in_string out (separator_of style) (word_len_of style).
Proof. destruct style; reflexivity. Qed.

Lemma word_len_positive (style : bw_style) : (0 < word_len_of style)%nat.
Proof. destruct style; simpl; lia. Qed.

Lemma memcmp_eq_refl (a : list byte) (n : nat) :
  (n <= length a)%nat -> memcmp_eq a a n = true.
Proof.
  revert a. induction n as [|n IH]; intros a Hn; [reflexivity|].
  destruct a as [|x a]; simpl in *; [lia|].
  rewrite Byte.byte_dec_lb by reflexivity. apply IH. lia.
Qed.

Lemma skipn_word_chars (b : byte) (rest : list ascii) :
  skipn 4 (word_chars b ++ rest) = rest.
Proof.
  rewrite skipn_app, skipn_all2 by (rewrite word_chars_length; lia).
  now rewrite word_chars_length.
Qed.

(** One round of the loop on a word of the table. *)
Lemma scan_word (separator : ascii) (cap fuel : nat) (b : byte)
  (rest : list ascii) (buf : list byte) :
  (length buf < cap)%nat ->
  scan (S fuel) (word_chars b ++ rest) buf cap separator 4
  = scan fuel (skip_separator separator rest) (buf ++ [b]) cap separator 4.
Proof.
  intros Hc. pose proof (word_chars_length b) as Hb.
  rewrite scan_step.
  - rewrite word_chars_decodes, skipn_word_chars.
    apply Nat.ltb_lt in Hc. now rewrite Hc.
  - destruct (word_chars b); [discriminate Hb|discriminate].
  - rewrite length_app. lia.
Qed.

(** The loop on words joined by the separator, whatever follows them. *)
Lemma scan_words_prefix (separator : ascii) (cap : nat) (rest : list ascii)
  (bytes : list byte) :
  forall fuel buf,
    separator <> NUL -> bytes <> [] ->
    (length buf + length bytes <= cap)%nat ->
    scan (length bytes + fuel) (words_text separator bytes ++ rest) buf cap
         separator 4
    = scan fuel (skip_separator separator rest) (buf ++ bytes) cap separator 4.
Proof.
  induction bytes as [|b [|b' bytes] IH]; intros fuel buf Hs Hne Hc.
  - contradiction.
  - simpl in Hc. cbn [words_text length Nat.add].
    apply scan_word. lia.
  - simpl length in Hc. rewrite words_text_cons, <- app_assoc.
    cbn [length Nat.add] in *.
    rewrite scan_word, <- app_comm_cons, skip_separator_here by (assumption || lia).
    rewrite IH; try assumption; try discriminate.
    + now rewrite <- app_assoc.
    + rewrite length_app. simpl length. lia.
Qed.

(** Words joined by the separator, then up to three more characters. *)
Lemma scan_words_text (separator : ascii) (cap : nat) (l : list ascii)
  (bytes : list byte) (fuel : nat) (buf : list byte) :
  separator <> NUL -> bytes <> [] -> (length l < 4)%nat ->
  (length bytes <= fuel)%nat -> (length buf + length bytes <= cap)%nat ->
  scan fuel (words_text separator bytes ++ l) buf cap separator 4
  = ScanEnd (buf ++ bytes) (skip_separator separator l).
Proof.
  intros Hs Hne Hl Hf Hc.
  replace fuel with (length bytes + (fuel - length bytes))%nat by lia.
  rewrite scan_words_prefix by assumption.
  apply scan_end. pose proof (skip_separator_length separator l). lia.
Qed.

(** A separator is not a letter, so it is not taken for one at the start of
    a word. *)
Lemma skip_separator_word (separator : ascii) (rest : list ascii)
  (bytes : list byte) :
  lowercase separator = false -> bytes <> [] ->
  skip_separator separator (words_text separator bytes ++ rest)
  = (words_text separator bytes ++ rest)%list.
Proof.
  intros Hs Hne. destruct bytes as [|b bytes]; [contradiction|].
  pose proof (word_chars_length b) as Hb.
  pose proof (word_chars_lowercase b) as Hlow.
  assert (E : exists c t, forall r,
             (words_text separator (b :: bytes) ++ r)%list = c :: t r
             /\ lowercase c = true).
  { destruct (word_chars b) as [|c w] eqn:Ew; [discriminate Hb|].
    simpl in Hlow. apply andb_prop in Hlow. destruct Hlow as [Hc _].
    destruct bytes as [|b' bytes].
    - exists c, (fun r => (w ++ r)%list). intros r. cbn [words_text].
      now rewrite Ew.
    - exists c, (fun r => (w ++ separator :: words_text separator (b' :: bytes) ++ r)%list).
      intros r. rewrite words_text_cons, Ew, <- app_assoc. now split. }
  destruct E as (c & t & E). destruct (E rest) as [-> Hc].
  simpl. destruct (Ascii.eqb_spec c separator) as [->|_]; [congruence|].
  now rewrite andb_false_r.
Qed.

(** The bytes of a finished scan fit the capacity it ran with. *)
Lemma scan_within_capacity (separator : ascii) (word_len cap fuel : nat) :
  forall in_p buf buf' rest,
    scan fuel in_p buf cap separator word_len = ScanEnd buf' rest ->
    (length buf <= cap)%nat -> (length buf' <= cap)%nat.
Proof.
  induction fuel as [|fuel IH]; intros in_p buf buf' rest.
  - destruct in_p; cbn [scan]; [intros [= <- _]; lia|].
    destruct (Nat.leb _ _); [discriminate|intros [= <- _]; lia].
  - destruct in_p as [|c in_p]; cbn [scan]; [intros [= <- _]; lia|].
    destruct (Nat.leb _ _); [|intros [= <- _]; lia].
    destruct (decode_word _ _); [|discriminate].
    destruct (Nat.ltb _ _) eqn:E; [|discriminate].
    intros H _. apply IH in H; [assumption|].
    apply Nat.ltb_lt in E. rewrite length_app. simpl. lia.
Qed.

(** When the scan resolves a payload followed by its checksum, [decode]
    returns that payload. *)
Lemma decode_of_scan (separator : ascii) (word_len : nat)
  (in_string rest : list ascii) (in_buf : list byte) (out : outputs) :
  in_buf <> [] ->
  scan (strlen in_string) (c_text in_string) []
       (strlen in_string / (word_len + 1) + 1) separator word_len
  = ScanEnd (add_crc crc32 in_buf) rest ->
  decode crc32 in_string out separator word_len
  = (Success, {| out_buf := add_crc crc32 in_buf; out_len := length in_buf |}).
Proof.
  intros Hne Hscan.
  assert (Hn : (1 <= length in_buf)%nat)
    by (destruct in_buf; [contradiction|simpl; lia]).
  pose proof (scan_within_capacity _ _ _ _ _ _ _ _ Hscan (Nat.le_0_l _)) as Hcap.
  rewrite add_crc_length in Hcap.
  unfold decode. fold (c_text in_string).
  replace (Nat.ltb (strlen in_string / (word_len + 1) + 1) 5) with false
    by (symmetry; apply Nat.ltb_ge; lia).
  rewrite Hscan, add_crc_length.
  replace (Nat.ltb (length in_buf + 4) 5) with false
    by (symmetry; apply Nat.ltb_ge; lia).
  replace (length in_buf + 4 - 4)%nat with (length in_buf) by lia.
  unfold add_crc at 1 2.
  rewrite firstn_app, firstn_all, Nat.sub_diag, firstn_O, app_nil_r.
  rewrite skipn_app, skipn_all, Nat.sub_diag, skipn_O. simpl app.
  now rewrite memcmp_eq_refl by (rewrite bytewords_hash_length; lia).
Qed.

(** Decoding any string whose characters are the words of a checksummed
    payload, joined by the separator and followed by up to three more. *)
Lemma decode_text (separator : ascii) (in_string l : list ascii)
  (in_buf : list byte) (out : outputs) :
  separator <> NUL -> in_buf <> [] -> (length l < 4)%nat ->
  c_text in_string = (words_text separator (add_crc crc32 in_buf) ++ l)%list ->
  decode crc32 in_string out separator 4
  = (Success, {| out_buf := add_crc crc32 in_buf; out_len := length in_buf |}).
Proof.
  intros Hs Hne Hl Ht.
  pose proof (c_text_length in_string) as Hlen.
  rewrite Ht, length_app, words_text_length, add_crc_length in Hlen.
  apply decode_of_scan with (rest := skip_separator separator l);
    [assumption|].
  rewrite Ht, <- Hlen.
  set (len := (5 * (length in_buf + 4) - 1 + length l)%nat).
  assert (Hq : (length in_buf + 3 <= len / (4 + 1))%nat)
    by (apply Nat.div_le_lower_bound; unfold len; lia).
  apply (scan_words_text separator _ l (add_crc crc32 in_buf) len []);
    try assumption.
  - apply add_crc_nonempty.
  - rewrite add_crc_length. unfold len. lia.
  - simpl length. rewrite add_crc_length. lia.
Qed.

(** A valid encoding from which one separator has been taken out: the words
    of [b1], then those of [b2], with nothing in between. *)
Lemma decode_separator_removed (separator : ascii) (in_string : list ascii)
  (in_buf b1 b2 : list byte) (out : outputs) :
  separator <> NUL -> lowercase separator = false ->
  in_buf <> [] -> b1 <> [] -> b2 <> [] ->
  add_crc crc32 in_buf = (b1 ++ b2)%list ->
  c_text in_string
  = (words_text separator b1 ++ words_text separator b2)%list ->
  decode crc32 in_string out separator 4
  = (Success, {| out_buf := add_crc crc32 in_buf; out_len := length in_buf |}).
Proof.
  intros Hs Hlow Hne H1 H2 Hsplit Ht.
  assert (L1 : (1 <= length b1)%nat) by (destruct b1; [contradiction|simpl; lia]).
  assert (L2 : (1 <= length b2)%nat) by (destruct b2; [contradiction|simpl; lia]).
  pose proof (add_crc_length crc32 in_buf) as Hn.
  rewrite Hsplit, length_app in Hn.
  pose proof (c_text_length in_string) as Hlen.
  rewrite Ht, length_app, !words_text_length in Hlen.
  apply decode_of_scan with (rest := []); [assumption|].
  rewrite Ht, <- Hlen, Hsplit.
  set (len := (5 * length b1 - 1 + (5 * length b2 - 1))%nat).
  assert (Hq : (length b1 + length b2 - 1 <= len / (4 + 1))%nat)
    by (apply Nat.div_le_lower_bound; unfold len; lia).
  set (cap := (len / (4 + 1) + 1)%nat).
  assert (Hcap : (length b1 + length b2 <= cap)%nat) by (unfold cap; lia).
  clearbody cap.
  replace len with (length b1 + (len - length b1))%nat by (unfold len; lia).
  rewrite scan_words_prefix by (assumption || simpl; lia).
  rewrite <- (app_nil_r (words_text separator b2)).
  rewrite skip_separator_word by assumption.
  rewrite scan_words_text;
    try assumption; try (simpl length; unfold len; lia).
  now rewrite app_nil_l.
Qed.

Lemma strlen_le (p : list ascii) : (strlen p <= length p)%nat.
Proof.
  induction p as [|c p IH]; simpl; [lia|].
  destruct (Ascii.eqb c NUL); lia.
Qed.

Lemma separator_not_nul (style : bw_style) :
  style <> bw_minimal -> separator_of style <> NUL.
Proof. destruct style; simpl; intros H; [discriminate..|contradiction]. Qed.

Lemma bytewords_encode_separated (style : bw_style) (in_buf : list byte) :
  style <> bw_minimal ->
  bytewords_encode crc32 style in_buf
  = (words_text (separator_of style) (add_crc crc32 in_buf) ++ [NUL])%list.
Proof.
  destruct style; intros H; try contradiction;
    apply encode_with_separator_text.
Qed.

(** A valid encoding in a separated style, followed by up to three more
    characters, decodes to its payload. *)
Lemma decode_encoded (style : bw_style) (in_buf : list byte)
  (l : list ascii) (out : outputs) :
  style <> bw_minimal -> in_buf <> [] -> (length l < 4)%nat ->
  bytewords_decode crc32 style
    (c_text (bytewords_encode crc32 style in_buf) ++ l) out
  = (Success, {| out_buf := add_crc crc32 in_buf; out_len := length in_buf |}).
Proof.
  intros Hstyle Hne Hl.
  pose proof (separator_not_nul style Hstyle) as Hs.
  rewrite bytewords_decode_decode.
  replace (word_len_of style) with 4%nat by (now destruct style).
  apply decode_text with (l := c_text l); try assumption.
  - rewrite c_text_length. pose proof (strlen_le l). lia.
  - rewrite c_text_app by apply c_text_nul_free. f_equal.
    rewrite bytewords_encode_separated by assumption.
    rewrite c_text_app by (now apply words_text_nul_free).
    apply app_nil_r.
Qed.

Lemma payload_add_crc (in_buf : list byte) :
  payload {| out_buf := add_crc crc32 in_buf; out_len := length in_buf |}
  = in_buf.
Proof.
  unfold payload, add_crc. simpl.
  now rewrite firstn_app, firstn_all, Nat.sub_diag, firstn_O, app_nil_r.
Qed.

(** C1 (amended). In the standard and uri styles, decoding the encoding of
    a non-empty byte sequence succeeds and returns exactly that sequence. *)
Theorem roundtrip_separated (style : bw_style) (in_buf : list byte)
  (out : outputs) :
  style <> bw_minimal -> in_buf <> [] ->
  returned_payload
    (bytewords_decode crc32 style (bytewords_encode crc32 style in_buf) out)
  = Some in_buf.
Proof.
  intros Hstyle Hne.
  pose proof (separator_not_nul style Hstyle) as Hs.
  rewrite bytewords_decode_decode.
  replace (word_len_of style) with 4%nat by (now destruct style).
  rewrite decode_text with (l := []) (in_buf := in_buf); try assumption.
  - unfold returned_payload. simpl fst. simpl snd. now rewrite payload_add_crc.
  - simpl. lia.
  - rewrite bytewords_encode_separated by assumption.
    rewrite c_text_app by (now apply words_text_nul_free). reflexivity.
Qed.

(** C4 (amended). In the standard and uri styles, up to three characters
    left over after a valid encoding of a non-empty payload are ignored:
    decode goes on to the checksum and returns the payload. *)
Theorem leftover_ignored (style : bw_style) (in_buf : list byte)
  (l : list ascii) (out : outputs) :
  style <> bw_minimal -> in_buf <> [] -> (length l < 4)%nat ->
  returned_payload
    (bytewords_decode crc32 style
       (c_text (bytewords_encode crc32 style in_buf) ++ l) out)
  = Some in_buf.
Proof.
  intros Hstyle Hne Hl. rewrite decode_encoded by assumption.
  unfold returned_payload. simpl fst. simpl snd. now rewrite payload_add_crc.
Qed.

(** C5. When the token scan of the input ends with fewer than five bytes
    resolved, decode fails as too short: the checksum is not looked at and
    nothing is returned. *)
Theorem too_short_rejected (style : bw_style) (in_string : list ascii)
  (out : outputs) (fuel cap : nat) (buf : list byte) (rest : list ascii) :
  scan fuel (c_text in_string) [] cap (separator_of style) (word_len_of style)
  = ScanEnd buf rest ->
  (length buf < 5)%nat ->
  bytewords_decode crc32 style in_string out = (Failure TooShort, out).
Proof.
  intros Hscan Hlen. rewrite bytewords_decode_decode. unfold decode.
  destruct (Nat.ltb _ 5) eqn:Hcap; [reflexivity|].
  apply Nat.ltb_ge in Hcap. fold (c_text in_string).
  rewrite (scan_stable _ _ _ _ _ _ _ _ (strlen in_string) _ Hscan).
  - apply Nat.ltb_lt in Hlen. now rewrite Hlen.
  - apply word_len_positive.
  - now rewrite c_text_length.
  - lia.
Qed.

(** C6. Whenever decode returns [false], the caller's [*out_buf] and
    [*out_len] are as they were before the call. *)
Theorem decode_all_or_nothing (style : bw_style) (in_string : list ascii)
  (out : outputs) (e : failure) :
  fst (bytewords_decode crc32 style in_string out) = Failure e ->
  snd (bytewords_decode crc32 style in_string out) = out.
Proof.
  rewrite bytewords_decode_decode. unfold decode.
  destruct (Nat.ltb _ 5); [reflexivity|].
  destruct (scan _ _ _ _ _ _); try reflexivity.
  destruct (Nat.ltb _ 5); [reflexivity|].
  destruct (negb _); [reflexivity|discriminate].
Qed.

(** X18. The loop of [decode] always ends: it makes at most [strlen] rounds,
    in every style and on every string. *)
Lemma bytewords_decode_terminates (style : bw_style) (in_string : list ascii)
  (out : outputs) :
  fst (bytewords_decode crc32 style in_string out) <> OutOfFuel.
Proof.
  rewrite bytewords_decode_decode. unfold decode.
  destruct (Nat.ltb _ 5); [discriminate|].
  fold (c_text in_string).
  pose proof (scan_fuel_enough
                (strlen in_string / (word_len_of style + 1) + 1)
                (separator_of style) (word_len_of style)
                (strlen in_string) (c_text in_string) []
                (word_len_positive style)) as T.
  rewrite c_text_length in T. specialize (T (Nat.le_refl _)).
  destruct (scan _ _ _ _ _ _); try discriminate; [|contradiction].
  destruct (Nat.ltb _ 5); [discriminate|].
  destruct (negb _); discriminate.
Qed.

(** C2 (amended). The standard encoding of the empty payload is exactly
    four words, those of the four checksum bytes, and decoding that string
    fails as too short. *)
Theorem empty_payload_standard (out : outputs) :
  exists c0 c1 c2 c3 : byte,
    bytewords_hash crc32 [] = [c0; c1; c2; c3] /\
    bytewords_encode crc32 bw_standard []
    = (word_chars c0 ++ " "%char :: word_chars c1 ++ " "%char ::
       word_chars c2 ++ " "%char :: word_chars c3 ++ [NUL])%list /\
    bytewords_decode crc32 bw_standard (bytewords_encode crc32 bw_standard []) out
    = (Failure TooShort, out).
Proof.
  destruct (bytewords_hash crc32 []) as [|c0 [|c1 [|c2 [|c3 [|c4 h]]]]] eqn:E;
    try discriminate E.
  exists c0, c1, c2, c3. split; [reflexivity|].
  assert (Henc : bytewords_encode crc32 bw_standard []
                 = (word_chars c0 ++ " "%char :: word_chars c1 ++ " "%char ::
                    word_chars c2 ++ " "%char :: word_chars c3 ++ [NUL])%list).
  { unfold bytewords_encode. rewrite encode_with_separator_text.
    unfold add_crc. rewrite E. cbn [app words_text].
    now repeat (rewrite <- app_assoc, <- app_comm_cons). }
  split; [exact Henc|].
  unfold bytewords_decode, decode.
  destruct (encoded_length crc32 []) as [-> _]. reflexivity.
Qed.

(** Taking the separator between [b1] and [b2] out of their joined words. *)
Lemma words_text_app (separator : ascii) (b1 b2 : list byte) :
  b1 <> [] -> b2 <> [] ->
  words_text separator (b1 ++ b2)
  = (words_text separator b1 ++ separator :: words_text separator b2)%list.
Proof.
  intros H1 H2. induction b1 as [|b [|b' b1] IH]; [contradiction| |].
  - destruct b2; [contradiction|reflexivity].
  - change ((b :: b' :: b1) ++ b2)%list with (b :: b' :: (b1 ++ b2))%list.
    rewrite !words_text_cons, <- app_assoc, <- app_comm_cons.
    do 2 f_equal. apply IH. discriminate.
Qed.

(** X20. The encoder's output decodes to its payload when any one of its
    separators is taken out: the capacity [(5 * n - 2) / 5 + 1] is still
    [n]. *)
Lemma encoding_without_one_separator (style : bw_style)
  (in_buf b1 b2 : list byte) (out : outputs) :
  style <> bw_minimal -> in_buf <> [] -> b1 <> [] -> b2 <> [] ->
  add_crc crc32 in_buf = (b1 ++ b2)%list ->
  bytewords_encode crc32 style in_buf
  = (words_text (separator_of style) b1 ++ separator_of style
       :: words_text (separator_of style) b2 ++ [NUL])%list /\
  returned_payload
    (bytewords_decode crc32 style
       (words_text (separator_of style) b1
          ++ words_text (separator_of style) b2 ++ [NUL]) out)
  = Some in_buf.
Proof.
  intros Hstyle Hne H1 H2 Hsplit.
  pose proof (separator_not_nul style Hstyle) as Hs.
  split.
  - rewrite bytewords_encode_separated, Hsplit, words_text_app by assumption.
    now rewrite <- app_assoc, <- app_comm_cons.
  - rewrite bytewords_decode_decode.
    replace (word_len_of style) with 4%nat by (now destruct style).
    rewrite decode_separator_removed with (in_buf := in_buf) (b1 := b1) (b2 := b2);
      try assumption.
    + unfold returned_payload. simpl fst. simpl snd. now rewrite payload_add_crc.
    + destruct style; try reflexivity; contradiction.
    + rewrite app_assoc, c_text_app; [apply app_nil_r|].
      apply Forall_app; split; now apply words_text_nul_free.
Qed.

(** *** The minimal style *)

Lemma skip_separator_none (in_p : list ascii) : skip_separator NUL in_p = in_p.
Proof. now destruct in_p. Qed.

(** The loop on two-letter codes, with room for fewer bytes than there are
    codes. *)
Lemma scan_minimal_overrun (cap : nat) (bytes : list byte) :
  forall fuel buf,
    (length bytes <= fuel)%nat -> (length buf <= cap)%nat ->
    (cap < length buf + length bytes)%nat ->
    scan fuel (encode_minimal_loop bytes) buf cap NUL 2 = ScanOverrun.
Proof.
  induction bytes as [|b bytes IH]; intros fuel buf Hf Hb Hc.
  - simpl in Hc. lia.
  - simpl length in Hf, Hc. destruct fuel as [|fuel]; [lia|].
    cbn [encode_minimal_loop]. fold (minimal_chars b).
    rewrite scan_step; [|discriminate|rewrite length_app; simpl; lia].
    rewrite minimal_chars_decodes.
    destruct (Nat.ltb (length buf) cap) eqn:E; [|reflexivity].
    apply Nat.ltb_lt in E.
    change (skipn 2 (minimal_chars b ++ encode_minimal_loop bytes))
      with (encode_minimal_loop bytes).
    rewrite skip_separator_none. apply IH.
    + lia.
    + rewrite length_app. simpl. lia.
    + rewrite length_app. simpl. lia.
Qed.

(** X19. No minimal encoding decodes: with [n] two-letter codes the capacity is
    [2 * n / 3 + 1], which is below five for a payload of at most one byte and
    below [n] otherwise. *)
Lemma minimal_roundtrip_status (in_buf : list byte) (out : outputs) :
  bytewords_decode crc32 bw_minimal (bytewords_encode crc32 bw_minimal in_buf) out
  = (if Nat.ltb (length in_buf) 2 then Failure TooShort else Overrun, out).
Proof.
  unfold bytewords_decode, bytewords_encode, encode_minimal, decode.
  fold (c_text (encode_minimal_loop (add_crc crc32 in_buf) ++ [NUL])).
  rewrite c_text_app by apply encode_minimal_loop_nul_free.
  rewrite strlen_terminated by apply encode_minimal_loop_nul_free.
  rewrite encode_minimal_loop_length, add_crc_length.
  set (n := (length in_buf + 4)%nat).
  change (c_text [NUL]) with (@nil ascii). rewrite app_nil_r.
  destruct (Nat.ltb (length in_buf) 2) eqn:E.
  - apply Nat.ltb_lt in E.
    assert (Hq : (2 * n / (2 + 1) < 4)%nat)
      by (apply Nat.Div0.div_lt_upper_bound; unfold n; lia).
    replace (Nat.ltb (2 * n / (2 + 1) + 1) 5) with true
      by (symmetry; apply Nat.ltb_lt; lia).
    reflexivity.
  - apply Nat.ltb_ge in E.
    assert (Hlo : (4 <= 2 * n / (2 + 1))%nat)
      by (apply Nat.div_le_lower_bound; unfold n; lia).
    assert (Hhi : (2 * n / (2 + 1) < n - 1)%nat)
      by (apply Nat.Div0.div_lt_upper_bound; unfold n; lia).
    replace (Nat.ltb (2 * n / (2 + 1) + 1) 5) with false
      by (symmetry; apply Nat.ltb_ge; lia).
    rewrite scan_minimal_overrun; [reflexivity| | |].
    + rewrite add_crc_length. fold n. lia.
    + simpl. lia.
    + simpl length. rewrite add_crc_length. fold n. lia.
Qed.

End Decoding.

(** ** Concrete runs *)

Section Runs.

Example crc32_ieee_zero_byte : crc32_ieee [x00] = 0xD202EF8D%N.
Proof. vm_compute. reflexivity. Qed.

Example encode_zero_byte :
  bytewords_encode crc32_ieee bw_standard [x00]
  = (lit "able tied also webs lung" ++ [NUL])%list /\
  bytewords_encode crc32_ieee bw_uri [x00]
  = (lit "able-tied-also-webs-lung" ++ [NUL])%list /\
  bytewords_encode crc32_ieee bw_minimal [x00]
  = (lit "aetdaowslg" ++ [NUL])%list.
Proof. vm_compute. auto. Qed.

(** C1, as stated, fails on the empty payload: its encoding has four words
    and [decode] asks for five bytes. *)
Lemma roundtrip_fails_on_empty_payload :
  bytewords_encode crc32_ieee bw_uri []
  = (lit "able-able-able-able" ++ [NUL])%list /\
  returned_payload
    (bytewords_decode crc32_ieee bw_uri
       (bytewords_encode crc32_ieee bw_uri []) no_outputs)
  <> Some [].
Proof. split; [vm_compute; reflexivity | vm_compute; discriminate]. Qed.

Lemma roundtrip_separated_witness :
  returned_payload
    (bytewords_decode crc32_ieee bw_standard
       (bytewords_encode crc32_ieee bw_standard [x00]) no_outputs)
  = Some [x00].
Proof.
  apply (roundtrip_separated crc32_ieee bw_standard [x00] no_outputs);
    discriminate.
Defined.

(** C2, as stated, fails: the four words of the empty payload do not decode
    to the empty byte sequence. *)
Lemma empty_payload_not_decoded :
  bytewords_encode crc32_ieee bw_standard []
  = (lit "able able able able" ++ [NUL])%list /\
  bytewords_decode crc32_ieee bw_standard
    (lit "able able able able" ++ [NUL]) no_outputs
  = (Failure TooShort, no_outputs) /\
  returned_payload
    (bytewords_decode crc32_ieee bw_standard
       (bytewords_encode crc32_ieee bw_standard []) no_outputs)
  <> Some [].
Proof.
  split; [vm_compute; reflexivity|].
  split; [vm_compute; reflexivity | vm_compute; discriminate].
Qed.

(** C3 fails on six words written without separators: the string has 24
    characters, [out_max_size] is [24 / 5 + 1 = 5], all six tokens resolve,
    and the sixth byte is written past the end of [buf]. It fails in the same
    way on six two-letter codes: 12 characters, [12 / 3 + 1 = 5]. *)
Theorem decode_overruns_buffer (crc32 : list byte -> N) (out : outputs) :
  (strlen (lit "ableableableableableable") / (4 + 1) + 1 = 5)%nat /\
  scan 24 (lit "ableableableableableable") [] 6 " "%char 4
  = ScanEnd [x00; x00; x00; x00; x00; x00] [] /\
  bytewords_decode crc32 bw_standard (lit "ableableableableableable") out
  = (Overrun, out) /\
  (strlen (lit "aeaefptabgzo") / (2 + 1) + 1 = 5)%nat /\
  scan 12 (lit "aeaefptabgzo") [] 6 NUL 2
  = ScanEnd [x00; x00; x41; xd9; x12; xff] [] /\
  bytewords_decode crc32 bw_minimal (lit "aeaefptabgzo") out = (Overrun, out).
Proof. vm_compute. repeat split. Qed.

(** C4, as stated, fails: a character left over after the last word is
    ignored, and the payload is returned. *)
Lemma leftover_not_rejected :
  scan 25 (lit "able tied also webs lunga") [] 6 " "%char 4
  = ScanEnd [x00; xd2; x02; xef; x8d] (lit "a") /\
  bytewords_decode crc32_ieee bw_standard
    (lit "able tied also webs lunga") no_outputs
  = (Success, {| out_buf := [x00; xd2; x02; xef; x8d]; out_len := 1 |}).
Proof. vm_compute. auto. Qed.

Lemma leftover_ignored_witness :
  returned_payload
    (bytewords_decode crc32_ieee bw_uri
       (c_text (bytewords_encode crc32_ieee bw_uri [x00]) ++ lit "zz")
       no_outputs)
  = Some [x00].
Proof.
  apply (leftover_ignored crc32_ieee bw_uri [x00] (lit "zz") no_outputs).
  - discriminate.
  - discriminate.
  - simpl. lia.
Defined.

Lemma too_short_rejected_witness :
  bytewords_decode crc32_ieee bw_standard
    (lit "able tied also webs ex") no_outputs
  = (Failure TooShort, no_outputs).
Proof.
  apply (too_short_rejected crc32_ieee bw_standard
           (lit "able tied also webs ex") no_outputs 22 5
           [x00; xd2; x02; xef] (lit "ex")).
  - vm_compute. reflexivity.
  - simpl. lia.
Defined.

Lemma decode_all_or_nothing_witness :
  snd (bytewords_decode crc32_ieee bw_standard
         (lit "able tied also webs luck") {| out_buf := [x2a]; out_len := 1 |})
  = {| out_buf := [x2a]; out_len := 1 |}.
Proof.
  apply (decode_all_or_nothing crc32_ieee bw_standard
           (lit "able tied also webs luck") _ ChecksumMismatch).
  vm_compute. reflexivity.
Defined.

(** C10 fails on a string that decodes and has a single separator: without
    it the string has 24 characters for six tokens, [out_max_size] is 5 and
    the sixth byte is written past the end of [buf]. *)
Theorem separator_removal_overruns :
  bytewords_decode crc32_ieee bw_standard
    (lit "ableableflaptunabrag zero") no_outputs
  = (Success, {| out_buf := [x00; x00; x41; xd9; x12; xff]; out_len := 2 |}) /\
  bytewords_decode crc32_ieee bw_standard
    (lit "ableableflaptunabragzero") no_outputs
  = (Overrun, no_outputs).
Proof. vm_compute. auto. Qed.

End Runs.

(** * Further properties *)

(** ** What a successful decode returns *)

Section DecodeResults.

Variable crc32 : list byte -> N.

Lemma memcmp_eq_true (a b : list byte) (n : nat) :
  length a = n -> length b = n -> memcmp_eq a b n = true -> a = b.
Proof.
  revert a b. induction n as [|n IH]; intros a b Ha Hb H.
  - destruct a, b; try discriminate; reflexivity.
  - destruct a as [|x a], b as [|y b]; try discriminate.
    simpl in H. apply andb_prop in H. destruct H as [Hxy H].
    apply Byte.byte_dec_bl in Hxy. subst y. f_equal.
    apply IH; simpl in *; congruence.
Qed.

(** X1. A successful decode hands back a buffer that is its payload followed
    by the four checksum bytes of that payload, with [out_len] the length of
    the payload; the payload is never empty, and the buffer fits the
    allocation. *)
Theorem decode_success_sound (style : bw_style) (in_string : list ascii)
  (out o : outputs) :
  bytewords_decode crc32 style in_string out = (Success, o) ->
  out_buf o = (payload o ++ bytewords_hash crc32 (payload o))%list /\
  out_len o = length (payload o) /\
  (1 <= out_len o)%nat /\
  (length (out_buf o) <= strlen in_string / (word_len_of style + 1) + 1)%nat.
Proof.
  rewrite bytewords_decode_decode. unfold decode.
  destruct (Nat.ltb _ 5); [discriminate|].
  destruct (scan _ _ _ _ _ _) as [buf rest| | |] eqn:Hscan; try discriminate.
  destruct (Nat.ltb (length buf) 5) eqn:Hlen; [discriminate|].
  apply Nat.ltb_ge in Hlen.
  destruct (negb _) eqn:Hsum; [discriminate|].
  intros [= <-]. unfold payload. simpl out_buf. simpl out_len.
  apply negb_false_iff in Hsum.
  apply memcmp_eq_true in Hsum;
    [|apply bytewords_hash_length|rewrite length_skipn; lia].
  rewrite Hsum, firstn_skipn, length_firstn.
  apply scan_within_capacity in Hscan; [|simpl; lia].
  repeat split; try lia.
Qed.

(** X2. A sequence of at least five words, joined by the separator, whose
    last four bytes are not the checksum of the bytes before them is rejected
    as a checksum mismatch. *)
Theorem decode_checksum_mismatch (style : bw_style) (bytes : list byte)
  (out : outputs) :
  style <> bw_minimal -> (5 <= length bytes)%nat ->
  skipn (length bytes - 4) bytes
  <> bytewords_hash crc32 (firstn (length bytes - 4) bytes) ->
  bytewords_decode crc32 style
    (words_text (separator_of style) bytes ++ [NUL]) out
  = (Failure ChecksumMismatch, out).
Proof.
  intros Hstyle Hn Hsum.
  pose proof (separator_not_nul style Hstyle) as Hs.
  assert (Hne : bytes <> []) by (intros ->; simpl in Hn; lia).
  rewrite bytewords_decode_decode.
  replace (word_len_of style) with 4%nat by (now destruct style).
  unfold decode. fold (c_text (words_text (separator_of style) bytes ++ [NUL])).
  rewrite c_text_app, strlen_terminated, words_text_length
    by (now apply words_text_nul_free).
  change (c_text [NUL]) with (@nil ascii).
  set (len := (5 * length bytes - 1)%nat).
  assert (Hq : (length bytes - 1 <= len / (4 + 1))%nat)
    by (apply Nat.div_le_lower_bound; unfold len; lia).
  replace (Nat.ltb (len / (4 + 1) + 1) 5) with false
    by (symmetry; apply Nat.ltb_ge; lia).
  rewrite scan_words_text; try assumption;
    try (simpl length; lia); try (unfold len; lia).
  simpl app.
  replace (Nat.ltb (length bytes) 5) with false
    by (symmetry; apply Nat.ltb_ge; lia).
  destruct (memcmp_eq _ _ 4) eqn:E; [|reflexivity].
  apply memcmp_eq_true in E;
    [|apply bytewords_hash_length|rewrite length_skipn; lia].
  now elim Hsum.
Qed.

End DecodeResults.

Lemma decode_success_sound_witness :
  out_buf {| out_buf := [x00; xd2; x02; xef; x8d]; out_len := 1 |}
  = (payload {| out_buf := [x00; xd2; x02; xef; x8d]; out_len := 1 |}
     ++ bytewords_hash crc32_ieee
          (payload {| out_buf := [x00; xd2; x02; xef; x8d]; out_len := 1 |}))%list.
Proof.
  apply (decode_success_sound crc32_ieee bw_standard
           (lit "able tied also webs lung") no_outputs).
  vm_compute. reflexivity.
Defined.

Lemma decode_checksum_mismatch_witness :
  bytewords_decode crc32_ieee bw_standard
    (lit "able tied also webs luck" ++ [NUL]) no_outputs
  = (Failure ChecksumMismatch, no_outputs).
Proof.
  apply (decode_checksum_mismatch crc32_ieee bw_standard
           [x00; xd2; x02; xef; x8c] no_outputs).
  - discriminate.
  - simpl. lia.
  - vm_compute. discriminate.
Defined.

(** ** More on words and the lookup table *)

Section Words.

Lemma decode_word_2 (w : list ascii) (word_len : nat) (i : byte) :
  word_len <> 4%nat ->
  (decode_word w word_len = Some i <->
   in_grid (coord w 0) (coord w 1) /\
   grid (coord w 0) (coord w 1) = Z.of_nat (Byte.to_nat i)).
Proof.
  intros Hw. apply Nat.eqb_neq in Hw.
  unfold decode_word. rewrite Hw. cbv iota.
  fold (coord w 0) (coord w 1). fold (grid (coord w 0) (coord w 1)).
  set (x := coord w 0). set (y := coord w 1). set (v := grid x y).
  pose proof (in_grid_dec x y) as G.
  pose proof (grid_range x y) as R. fold v in R.
  rewrite andb_false_l.
  split.
  - destruct ((0 <=? x) && (x <? dim) && (0 <=? y) && (y <? dim)) eqn:E;
      simpl; [|discriminate].
    destruct (v =? -1) eqn:Ev; [discriminate|].
    intros [= <-]. rewrite uint8_of_Z_value by lia. tauto.
  - intros [Hg Hv]. apply G in Hg. rewrite Hg. simpl. rewrite Hv.
    pose proof (Byte.to_nat_bounded i).
    replace (Z.of_nat (Byte.to_nat i) =? -1) with false by lia.
    now rewrite uint8_of_Z_byte.
Qed.

(** X3. When [word_len] is not 4 the token is read as a two-letter code: it
    resolves to [i] exactly when its first two letters are coordinates of the
    lookup table and the table holds [i] there; nothing else is compared. *)
Theorem decode_word_two_letters (w : list ascii) (word_len : nat) (i : byte) :
  word_len <> 4%nat ->
  (decode_word w word_len = Some i <->
   in_grid (coord w 0) (coord w 1) /\
   grid (coord w 0) (coord w 1) = Z.of_nat (Byte.to_nat i)).
Proof. exact (decode_word_2 w word_len i). Qed.

(** X4. [decode_word] undoes [get_word] and [get_minimal_word] for each of
    the 256 indices, also when more characters follow the token. *)
Theorem word_roundtrip (i : byte) (rest : list ascii) :
  decode_word (get_word i) 4 = Some i /\
  decode_word (get_minimal_word i) 2 = Some i /\
  decode_word (word_chars i ++ rest) 4 = Some i /\
  decode_word (minimal_chars i ++ rest) 2 = Some i.
Proof.
  split; [|split; [|split]].
  - rewrite get_word_chars. apply word_chars_decodes.
  - apply (minimal_chars_decodes i [NUL]).
  - apply word_chars_decodes.
  - apply minimal_chars_decodes.
Qed.

Lemma grid_checked :
  forallb (fun k =>
             let v := nth k array (-1) in
             (v =? -1)
             || ((0 <=? v) && (v <? 256)
                 && (char_at (entry (Z.to_nat v)) 0 - letter_a =? Z.of_nat k mod dim)
                 && (char_at (entry (Z.to_nat v)) 3 - letter_a =? Z.of_nat k / dim)))
          (seq 0 676) = true.
Proof. vm_compute. reflexivity. Qed.

Lemma entries_checked :
  forallb (fun i =>
             let x := char_at (entry i) 0 - letter_a in
             let y := char_at (entry i) 3 - letter_a in
             (0 <=? x) && (x <? dim) && (0 <=? y) && (y <? dim)
             && (grid x y =? Z.of_nat i)) (seq 0 256) = true.
Proof. vm_compute. reflexivity. Qed.

Lemma grid_of_entry (i : nat) :
  (i < 256)%nat ->
  let x := char_at (entry i) 0 - letter_a in
  let y := char_at (entry i) 3 - letter_a in
  in_grid x y /\ grid x y = Z.of_nat i.
Proof.
  intros Hi x y.
  pose proof entries_checked as C. rewrite forallb_forall in C.
  specialize (C i). rewrite in_seq in C. specialize (C ltac:(lia)).
  cbv zeta in C. fold x y in C. unfold in_grid. lia.
Qed.

Lemma entry_of_grid (x y : Z) :
  in_grid x y -> grid x y <> -1 ->
  0 <= grid x y < 256 /\
  char_at (entry (Z.to_nat (grid x y))) 0 - letter_a = x /\
  char_at (entry (Z.to_nat (grid x y))) 3 - letter_a = y.
Proof.
  intros [Hx Hy] Hv. unfold dim in Hx, Hy.
  pose proof grid_checked as C. rewrite forallb_forall in C.
  specialize (C (Z.to_nat (y * dim + x))). rewrite in_seq in C.
  specialize (C ltac:(unfold dim; lia)). cbv zeta in C.
  fold (grid x y) in C. rewrite Z2Nat.id in C by (unfold dim; lia).
  replace ((y * dim + x) mod dim) with x in C
    by (unfold dim; apply Z.mod_unique with y; lia).
  replace ((y * dim + x) / dim) with y in C
    by (unfold dim; apply Z.div_unique with x; lia).
  lia.
Qed.

(** X5. The lookup table built at lines 28-41 is the inverse of the word
    table: at the coordinates of the first and last letters of entry [i] it
    holds [i], and a cell that is not -1 holds the index of an entry whose
    first and last letters are the cell's coordinates. *)
Theorem lookup_table_inverse :
  array = array_build /\
  (forall i, (i < 256)%nat ->
     let x := char_at (entry i) 0 - letter_a in
     let y := char_at (entry i) 3 - letter_a in
     in_grid x y /\ grid x y = Z.of_nat i) /\
  (forall x y, in_grid x y -> grid x y <> -1 ->
     0 <= grid x y < 256 /\
     char_at (entry (Z.to_nat (grid x y))) 0 - letter_a = x /\
     char_at (entry (Z.to_nat (grid x y))) 3 - letter_a = y).
Proof.
  split; [apply array_built|]. split; [exact grid_of_entry|exact entry_of_grid].
Qed.

End Words.

Lemma decode_word_two_letters_witness :
  decode_word (lit "Zo") 2 = Some xff.
Proof.
  apply (decode_word_two_letters (lit "Zo") 2 xff).
  - discriminate.
  - split; vm_compute; [intuition discriminate|reflexivity].
Defined.

Lemma lookup_table_inverse_witness :
  grid 25 14 = 255 /\ char_at (entry 255) 0 - letter_a = 25.
Proof.
  destruct lookup_table_inverse as (_ & Hfwd & Hback). split.
  - apply (Hfwd 255%nat). lia.
  - destruct (Hback 25 14) as (_ & H & _).
    + vm_compute. intuition discriminate.
    + vm_compute. discriminate.
    + exact H.
Defined.

(** ** Letter case *)

Section LetterCase.

Variable crc32 : list byte -> N.

Lemma char_code_inj (c c' : ascii) : char_at [c] 0 = char_at [c'] 0 -> c = c'.
Proof.
  unfold char_at. simpl. intros H. apply Nat2Z.inj in H.
  rewrite <- (ascii_nat_embedding c), <- (ascii_nat_embedding c'). now f_equal.
Qed.

Lemma char_code_range (c : ascii) : 0 <= char_at [c] 0 < 256.
Proof. unfold char_at. simpl. pose proof (nat_ascii_bounded c). lia. Qed.

(** A character that is not a letter is matched by itself only. *)
Lemma same_letter_other (sep c c' : ascii) :
  tolower (char_at [c] 0) = tolower (char_at [c'] 0) ->
  (char_at [sep] 0 < 65 \/ 122 < char_at [sep] 0) ->
  Ascii.eqb c sep = Ascii.eqb c' sep.
Proof.
  intros H Hsep.
  destruct (Ascii.eqb_spec c sep) as [->|Hc], (Ascii.eqb_spec c' sep) as [->|Hc'];
    try reflexivity; exfalso.
  - apply Hc'. apply char_code_inj. unfold tolower in H.
    destruct andb eqn:E1 in H; destruct andb eqn:E2 in H; lia.
  - apply Hc. apply char_code_inj. unfold tolower in H.
    destruct andb eqn:E1 in H; destruct andb eqn:E2 in H; lia.
Qed.

Lemma same_letters_length (s s' : list ascii) :
  same_letters s s' -> length s = length s'.
Proof. induction 1; simpl; congruence. Qed.

Lemma same_letters_char_at (s s' : list ascii) :
  same_letters s s' ->
  forall k, tolower (char_at s k) = tolower (char_at s' k).
Proof.
  induction 1 as [|c c' s s' Hc _ IH]; intros k; [reflexivity|].
  destruct k; [exact Hc|apply IH].
Qed.

Lemma same_letters_skipn (n : nat) (s s' : list ascii) :
  same_letters s s' -> same_letters (skipn n s) (skipn n s').
Proof.
  intros H. revert n. induction H; intros [|n]; simpl;
    try constructor; try assumption. apply IHForall2.
Qed.

Lemma same_letters_firstn (n : nat) (s s' : list ascii) :
  same_letters s s' -> same_letters (firstn n s) (firstn n s').
Proof.
  intros H. revert n. induction H; intros [|n]; simpl;
    constructor; try assumption. apply IHForall2.
Qed.

Lemma same_letters_strlen (s s' : list ascii) :
  same_letters s s' -> strlen s = strlen s'.
Proof.
  induction 1 as [|c c' s s' Hc _ IH]; [reflexivity|]. simpl.
  rewrite (same_letter_other NUL c c' Hc) by (left; vm_compute; reflexivity).
  now rewrite IH.
Qed.

Lemma same_letters_skip_separator (style : bw_style) (s s' : list ascii) :
  same_letters s s' ->
  same_letters (skip_separator (separator_of style) s)
               (skip_separator (separator_of style) s').
Proof.
  intros H. destruct H as [|c c' s s' Hc H]; [constructor|].
  simpl. rewrite (same_letter_other (separator_of style) c c' Hc)
    by (left; destruct style; vm_compute; reflexivity).
  destruct (negb _ && _); [assumption|now constructor].
Qed.

Lemma same_letters_scan (style : bw_style) (cap fuel : nat) :
  forall s s' buf,
    same_letters s s' ->
    resolved (scan fuel s buf cap (separator_of style) (word_len_of style))
    = resolved (scan fuel s' buf cap (separator_of style) (word_len_of style)).
Proof.
  induction fuel as [|fuel IH]; intros s s' buf H;
    pose proof (same_letters_length s s' H) as Hlen.
  - destruct H as [|c c' s s' Hc H]; [reflexivity|]. cbn [scan].
    rewrite Hlen. now destruct (Nat.leb _ _).
  - destruct (Nat.lt_ge_cases (length s) (word_len_of style)) as [Hl | Hl].
    + rewrite !scan_end by lia. reflexivity.
    + pose proof (word_len_positive style) as Hw.
      rewrite !scan_step; try lia;
        try (intros ->; simpl in *; lia).
      rewrite (decode_word_case s s' _ (same_letters_char_at s s' H)).
      destruct (decode_word s' _); [|reflexivity].
      destruct (Nat.ltb _ _); [|reflexivity].
      apply IH. apply same_letters_skip_separator.
      now apply same_letters_skipn.
Qed.

Lemma decode_resolved (in_string in_string' : list ascii) (out : outputs)
  (separator : ascii) (word_len : nat) :
  strlen in_string = strlen in_string' ->
  resolved (scan (strlen in_string) (c_text in_string) []
              (strlen in_string / (word_len + 1) + 1) separator word_len)
  = resolved (scan (strlen in_string) (c_text in_string') []
                (strlen in_string / (word_len + 1) + 1) separator word_len) ->
  decode crc32 in_string out separator word_len
  = decode crc32 in_string' out separator word_len.
Proof.
  intros Hlen H. unfold decode. fold (c_text in_string) (c_text in_string').
  rewrite <- Hlen. destruct (Nat.ltb _ 5); [reflexivity|].
  destruct (scan _ (c_text in_string) _ _ _ _),
    (scan _ (c_text in_string') _ _ _ _); simpl in H; try discriminate H;
    try reflexivity.
  now injection H as ->.
Qed.

Lemma decode_same_letters (style : bw_style) (s s' : list ascii)
  (out : outputs) :
  same_letters s s' ->
  bytewords_decode crc32 style s out = bytewords_decode crc32 style s' out.
Proof.
  intros H. rewrite !bytewords_decode_decode.
  pose proof (same_letters_strlen s s' H) as Hlen.
  apply decode_resolved; [assumption|].
  apply same_letters_scan. unfold c_text. rewrite <- Hlen.
  now apply same_letters_firstn.
Qed.

(** X6. Decoding does not depend on letter case: two strings that differ in
    the case of their letters only give the same result, in every style. *)
Theorem decode_case_insensitive (style : bw_style) (s s' : list ascii)
  (out : outputs) :
  same_letters s s' ->
  bytewords_decode crc32 style s out = bytewords_decode crc32 style s' out.
Proof. exact (decode_same_letters style s s' out). Qed.

Lemma upper_same_letter (c : ascii) :
  tolower (char_at [upper c] 0) = tolower (char_at [c] 0).
Proof.
  destruct c as [[] [] [] [] [] [] [] []]; vm_compute; reflexivity.
Qed.

Lemma same_letters_upper (s : list ascii) : same_letters (map upper s) s.
Proof.
  induction s; constructor; [apply upper_same_letter|assumption].
Qed.

(** X7. In the standard and uri styles the upper-cased encoding of a
    non-empty byte sequence decodes to that sequence. *)
Theorem roundtrip_upper_case (style : bw_style) (in_buf : list byte)
  (out : outputs) :
  style <> bw_minimal -> in_buf <> [] ->
  returned_payload
    (bytewords_decode crc32 style
       (map upper (bytewords_encode crc32 style in_buf)) out)
  = Some in_buf.
Proof.
  intros Hstyle Hne.
  rewrite (decode_same_letters style _ _ out (same_letters_upper _)).
  rewrite bytewords_decode_decode.
  replace (word_len_of style) with 4%nat by (now destruct style).
  rewrite decode_text with (l := []) (in_buf := in_buf); try assumption.
  - unfold returned_payload. simpl fst. simpl snd. now rewrite payload_add_crc.
  - now apply separator_not_nul.
  - simpl. lia.
  - rewrite bytewords_encode_separated by assumption.
    rewrite c_text_app
      by (apply words_text_nul_free; now apply separator_not_nul).
    reflexivity.
Qed.

End LetterCase.

Lemma decode_case_insensitive_witness :
  bytewords_decode crc32_ieee bw_standard (lit "ABLE Tied aLSo webs LUNG") no_outputs
  = bytewords_decode crc32_ieee bw_standard (lit "able tied also webs lung") no_outputs.
Proof.
  apply (decode_case_insensitive crc32_ieee bw_standard).
  repeat constructor.
Defined.

Lemma roundtrip_upper_case_witness :
  map upper (bytewords_encode crc32_ieee bw_uri [x00])
  = (lit "ABLE-TIED-ALSO-WEBS-LUNG" ++ [NUL])%list /\
  returned_payload
    (bytewords_decode crc32_ieee bw_uri
       (map upper (bytewords_encode crc32_ieee bw_uri [x00])) no_outputs)
  = Some [x00].
Proof.
  split; [vm_compute; reflexivity|].
  apply (roundtrip_upper_case crc32_ieee bw_uri [x00] no_outputs); discriminate.
Defined.

(** ** Where failures come from *)

Section Failures.

Variable crc32 : list byte -> N.




Lemma scan_overrun (separator : ascii) (word_len cap fuel : nat) :
  forall in_p buf,
    scan fuel in_p buf cap separator word_len = ScanOverrun ->
    (length buf <= cap)%nat ->
    (word_len * (cap + 1 - length buf) <= length in_p)%nat.
Proof.
  induction fuel as [|fuel IH]; intros in_p buf H Hb.
  - destruct in_p; cbn [scan] in H; [discriminate|].
    destruct (Nat.leb _ _); discriminate.
  - destruct (Nat.lt_ge_cases (length in_p) word_len) as [Hl | Hl].
    + rewrite scan_end in H by assumption. discriminate.
    + destruct in_p as [|c in_p]; [discriminate H|].
      rewrite scan_step in H by (assumption || discriminate).
      destruct (decode_word (c :: in_p) word_len); [|discriminate].
      destruct (Nat.ltb (length buf) cap) eqn:E.
      * apply Nat.ltb_lt in E. apply IH in H;
          [|rewrite length_app; simpl; lia].
        pose proof (skip_separator_length separator (skipn word_len (c :: in_p))).
        rewrite length_app, length_skipn in *. simpl length in *. nia.
      * apply Nat.ltb_ge in E. replace (cap + 1 - length buf)%nat with 1%nat by lia.
        lia.
Qed.

(** X9. Decode writes past its buffer only when the string holds more full
    tokens than [out_max_size]: at least 24 characters in the standard and
    uri styles, at least 12 in the minimal style. *)
Theorem overrun_needs_tokens (style : bw_style) (in_string : list ascii)
  (out : outputs) :
  fst (bytewords_decode crc32 style in_string out) = Overrun ->
  (word_len_of style
   * (strlen in_string / (word_len_of style + 1) + 2) <= strlen in_string)%nat
  /\ (6 * word_len_of style <= strlen in_string)%nat.
Proof.
  rewrite bytewords_decode_decode. unfold decode. fold (c_text in_string).
  destruct (Nat.ltb _ 5) eqn:Hcap; [discriminate|].
  apply Nat.ltb_ge in Hcap.
  destruct (scan _ _ _ _ _ _) eqn:E; try discriminate.
  - destruct (Nat.ltb _ 5); [discriminate|]. destruct (negb _); discriminate.
  - intros _. apply scan_overrun in E; [|simpl; lia].
    rewrite c_text_length in E. simpl length in E.
    replace (strlen in_string / (word_len_of style + 1) + 1 + 1 - 0)%nat
      with (strlen in_string / (word_len_of style + 1) + 2)%nat in E by lia.
    split; [exact E|].
    set (q := (strlen in_string / (word_len_of style + 1))%nat) in *. nia.
Qed.

(** X10. The standard and uri styles do not read each other's text: the
    encoding of a non-empty payload in one of them fails on its second token
    when decoded in the other. *)
Theorem styles_not_interchangeable (style style' : bw_style)
  (in_buf : list byte) (out : outputs) :
  style <> bw_minimal -> style' <> bw_minimal -> style <> style' ->
  in_buf <> [] ->
  bytewords_decode crc32 style' (bytewords_encode crc32 style in_buf) out
  = (Failure InvalidWord, out).
Proof.
  intros Hs Hs' Hdiff Hne.
  assert (H1 : (1 <= length in_buf)%nat)
    by (destruct in_buf; [contradiction|simpl; lia]).
  rewrite bytewords_decode_decode, bytewords_encode_separated by assumption.
  replace (word_len_of style') with 4%nat by (now destruct style').
  unfold decode.
  fold (c_text (words_text (separator_of style) (add_crc crc32 in_buf) ++ [NUL])).
  rewrite c_text_app, strlen_terminated, words_text_length, add_crc_length
    by (apply words_text_nul_free; now apply separator_not_nul).
  change (c_text [NUL]) with (@nil ascii). rewrite app_nil_r.
  set (len := (5 * (length in_buf + 4) - 1)%nat).
  assert (Hq : (4 <= len / (4 + 1))%nat)
    by (apply Nat.div_le_lower_bound; unfold len; lia).
  replace (Nat.ltb (len / (4 + 1) + 1) 5) with false
    by (symmetry; apply Nat.ltb_ge; lia).
  assert (Hlen : (2 <= len)%nat) by (unfold len; lia).
  destruct len as [|[|len]]; try lia.
  pose proof (add_crc_length crc32 in_buf) as Hn.
  destruct (add_crc crc32 in_buf) as [|b [|b' bytes]]; simpl in Hn; try lia.
  rewrite words_text_cons, scan_word by (simpl; lia).
  replace (skip_separator (separator_of style')
             (separator_of style :: words_text (separator_of style) (b' :: bytes)))
    with (separator_of style :: words_text (separator_of style) (b' :: bytes))
    by (destruct style, style'; try contradiction; reflexivity).
  rewrite scan_step; [|discriminate|].
  - replace (decode_word _ 4) with (@None byte); [reflexivity|].
    symmetry. apply decode_word_out_of_range.
    destruct style; try contradiction; vm_compute; intros [[H _] _]; now apply H.
  - simpl length. pose proof (words_text_length (separator_of style) (b' :: bytes)) as L.
    simpl length in L. lia.
Qed.

End Failures.


Lemma overrun_needs_tokens_witness :
  (6 * word_len_of bw_minimal
   <= strlen (bytewords_encode crc32_ieee bw_minimal [x00; x01]))%nat.
Proof.
  apply (overrun_needs_tokens crc32_ieee bw_minimal
           (bytewords_encode crc32_ieee bw_minimal [x00; x01]) no_outputs).
  vm_compute. reflexivity.
Defined.

Lemma styles_not_interchangeable_witness :
  bytewords_decode crc32_ieee bw_standard
    (bytewords_encode crc32_ieee bw_uri [x00]) no_outputs
  = (Failure InvalidWord, no_outputs).
Proof.
  apply (styles_not_interchangeable crc32_ieee bw_uri bw_standard [x00] no_outputs);
    discriminate.
Defined.

(** ** The encoder's text *)

Section EncoderText.

Variable crc32 : list byte -> N.

Lemma uint8_of_N_value (n : N) : Byte.to_N (uint8_of_N n) = (n mod 256)%N.
Proof.
  unfold uint8_of_N. destruct (Byte.of_N (n mod 256)) as [b|] eqn:E.
  - now apply Byte.to_of_N.
  - apply Byte.of_N_None_iff in E.
    pose proof (N.mod_lt n 256 ltac:(discriminate)). lia.
Qed.

(** X11. The four checksum bytes are the CRC, reduced to 32 bits, most
    significant byte first. *)
Theorem bytewords_hash_big_endian (bytes : list byte) :
  length (bytewords_hash crc32 bytes) = 4%nat /\
  big_endian (bytewords_hash crc32 bytes) = (crc32 bytes mod 2 ^ 32)%N.
Proof.
  split; [reflexivity|].
  unfold bytewords_hash, htonl_bytes, big_endian. cbn [fold_left].
  rewrite !uint8_of_N_value, !N.shiftr_div_pow2.
  set (v := (crc32 bytes mod 2 ^ 32)%N).
  assert (Hv : (v < 2 ^ 32)%N) by (apply N.mod_lt; discriminate).
  change (2 ^ 32)%N with 4294967296%N in Hv.
  change (2 ^ 24)%N with 16777216%N. change (2 ^ 16)%N with 65536%N.
  change (2 ^ 8)%N with 256%N.
  clearbody v. zify. Z.to_euclidean_division_equations. lia.
Qed.

Lemma words_text_inj (separator : ascii) (b1 b2 : list byte) :
  separator <> NUL -> b1 <> [] -> b2 <> [] ->
  words_text separator b1 = words_text separator b2 -> b1 = b2.
Proof.
  intros Hs H1 H2 H.
  pose proof (scan_words_text separator (length b1 + length b2) [] b1
                (length b1 + length b2) [] Hs H1) as S1.
  pose proof (scan_words_text separator (length b1 + length b2) [] b2
                (length b1 + length b2) [] Hs H2) as S2.
  rewrite H in S1. rewrite S2 in S1 by (simpl; lia).
  symmetry in S1. specialize (S1 ltac:(simpl; lia) ltac:(lia) ltac:(simpl; lia)).
  now injection S1.
Qed.

(** The loop on two-letter codes, with room for all of them. *)
Lemma scan_minimal_text (cap : nat) (bytes : list byte) :
  forall fuel buf,
    (length bytes <= fuel)%nat -> (length buf + length bytes <= cap)%nat ->
    scan fuel (encode_minimal_loop bytes) buf cap NUL 2
    = ScanEnd (buf ++ bytes) [].
Proof.
  induction bytes as [|b bytes IH]; intros fuel buf Hf Hc.
  - rewrite app_nil_r. now destruct fuel.
  - simpl length in Hf, Hc. destruct fuel as [|fuel]; [lia|].
    cbn [encode_minimal_loop]. fold (minimal_chars b).
    rewrite scan_step; [|discriminate|rewrite length_app; simpl; lia].
    rewrite minimal_chars_decodes.
    replace (Nat.ltb (length buf) cap) with true
      by (symmetry; apply Nat.ltb_lt; lia).
    change (skipn 2 (minimal_chars b ++ encode_minimal_loop bytes))
      with (encode_minimal_loop bytes).
    rewrite skip_separator_none, IH.
    + now rewrite <- app_assoc.
    + lia.
    + rewrite length_app. simpl. lia.
Qed.

Lemma encode_minimal_loop_inj (b1 b2 : list byte) :
  encode_minimal_loop b1 = encode_minimal_loop b2 -> b1 = b2.
Proof.
  intros H.
  pose proof (scan_minimal_text (length b1 + length b2) b1
                (length b1 + length b2) [] ltac:(lia) ltac:(simpl; lia)) as S1.
  pose proof (scan_minimal_text (length b1 + length b2) b2
                (length b1 + length b2) [] ltac:(lia) ltac:(simpl; lia)) as S2.
  rewrite H, S2 in S1. now injection S1.
Qed.

Lemma add_crc_inj (b1 b2 : list byte) :
  add_crc crc32 b1 = add_crc crc32 b2 -> b1 = b2.
Proof.
  intros H.
  assert (Hlen : length b1 = length b2).
  { apply (f_equal (@length byte)) in H. rewrite !add_crc_length in H. lia. }
  apply (f_equal (firstn (length b1))) in H. unfold add_crc in H.
  rewrite firstn_app, firstn_all, Nat.sub_diag, firstn_O, app_nil_r in H.
  rewrite Hlen, firstn_app, firstn_all, Nat.sub_diag, firstn_O, app_nil_r in H.
  exact H.
Qed.

(** X12. In every style the encoder maps different byte sequences to
    different strings. *)
Theorem bytewords_encode_injective (style : bw_style) (b1 b2 : list byte) :
  b1 <> b2 ->
  bytewords_encode crc32 style b1 <> bytewords_encode crc32 style b2.
Proof.
  intros Hdiff H. apply Hdiff, add_crc_inj.
  destruct style.
  - unfold bytewords_encode in H. rewrite !encode_with_separator_text in H.
    apply app_inv_tail in H.
    apply words_text_inj in H; try assumption; try discriminate;
      apply add_crc_nonempty.
  - unfold bytewords_encode in H. rewrite !encode_with_separator_text in H.
    apply app_inv_tail in H.
    apply words_text_inj in H; try assumption; try discriminate;
      apply add_crc_nonempty.
  - unfold bytewords_encode, encode_minimal in H.
    apply app_inv_tail in H. now apply encode_minimal_loop_inj.
Qed.

Lemma words_text_alphabet (separator : ascii) (bytes : list byte) :
  Forall (fun c => lowercase c = true \/ c = separator)
         (words_text separator bytes).
Proof.
  assert (W : forall b, Forall (fun c => lowercase c = true \/ c = separator)
                               (word_chars b)).
  { intros b. apply Forall_forall. intros c Hc. left.
    pose proof (word_chars_lowercase b) as L.
    rewrite forallb_forall in L. now apply L. }
  induction bytes as [|b [|b' bytes] IH].
  - constructor.
  - apply W.
  - rewrite words_text_cons. apply Forall_app. split; [apply W|].
    constructor; [now right|assumption].
Qed.

(** X13. The encoder fills exactly the buffer it allocates ([5 * N] bytes,
    or [2 * N + 1] in the minimal style, for [N] bytes with the checksum):
    lowercase letters and, between words, the style's separator, then a
    single NUL at the very end. *)
Theorem encoded_text_shape (style : bw_style) (in_buf : list byte) :
  let out_buf := bytewords_encode crc32 style in_buf in
  let N := (length in_buf + 4)%nat in
  length out_buf = match style with
                   | bw_minimal => (2 * N + 1)%nat
                   | _ => (5 * N)%nat
                   end /\
  out_buf = (c_text out_buf ++ [NUL])%list /\
  Forall (fun c => lowercase c = true
                   \/ (style <> bw_minimal /\ c = separator_of style))
         (c_text out_buf).
Proof.
  intros out_buf N. subst out_buf.
  destruct style; unfold bytewords_encode.
  - rewrite encode_with_separator_text.
    rewrite c_text_app by (apply words_text_nul_free; discriminate).
    change (c_text [NUL]) with (@nil ascii). rewrite app_nil_r.
    rewrite length_app, words_text_length, add_crc_length.
    split; [simpl; lia|]. split; [reflexivity|].
    eapply Forall_impl; [|apply words_text_alphabet].
    intros c [H | H]; [now left|right; split; [discriminate|exact H]].
  - rewrite encode_with_separator_text.
    rewrite c_text_app by (apply words_text_nul_free; discriminate).
    change (c_text [NUL]) with (@nil ascii). rewrite app_nil_r.
    rewrite length_app, words_text_length, add_crc_length.
    split; [simpl; lia|]. split; [reflexivity|].
    eapply Forall_impl; [|apply words_text_alphabet].
    intros c [H | H]; [now left|right; split; [discriminate|exact H]].
  - unfold encode_minimal.
    rewrite c_text_app by apply encode_minimal_loop_nul_free.
    change (c_text [NUL]) with (@nil ascii). rewrite app_nil_r.
    rewrite length_app, encode_minimal_loop_length, add_crc_length.
    split; [simpl; lia|]. split; [reflexivity|].
    induction (add_crc crc32 in_buf) as [|b bytes IH]; [constructor|].
    cbn [encode_minimal_loop]. apply Forall_app. split; [|assumption].
    apply Forall_forall. intros c Hc. left.
    pose proof (minimal_chars_lowercase b) as L.
    rewrite forallb_forall in L. now apply L.
Qed.

End EncoderText.

Lemma bytewords_encode_injective_witness :
  bytewords_encode crc32_ieee bw_minimal [x00]
  <> bytewords_encode crc32_ieee bw_minimal [x00; x00].
Proof.
  apply (bytewords_encode_injective crc32_ieee bw_minimal [x00] [x00; x00]).
  discriminate.
Defined.

(** ** Separators left out *)

Section LooseSeparators.

Variable crc32 : list byte -> N.

Variable separator : ascii.
Hypothesis separator_not_NUL : separator <> NUL.
Hypothesis separator_no_letter : lowercase separator = false.

Lemma loose_text_length (items : list (byte * bool)) :
  length (loose_text separator items)
  = (4 * length items + separators items)%nat.
Proof.
  unfold separators. induction items as [|[b f] items IH]; [reflexivity|].
  cbn [loose_text filter snd]. rewrite !length_app, word_chars_length, IH.
  destruct f; simpl length; lia.
Qed.

Lemma loose_text_nul_free (items : list (byte * bool)) :
  nul_free (loose_text separator items).
Proof.
  induction items as [|[b f] items IH]; [constructor|].
  cbn [loose_text]. apply Forall_app. split; [apply word_chars_nul_free|].
  apply Forall_app. split; [|assumption].
  destruct f; constructor; [assumption|constructor].
Qed.

Lemma skip_separator_loose (items : list (byte * bool)) :
  skip_separator separator (loose_text separator items)
  = loose_text separator items.
Proof.
  destruct items as [|[b f] items]; [reflexivity|]. cbn [loose_text].
  pose proof (word_chars_length b) as Hb.
  pose proof (word_chars_lowercase b) as Hlow.
  destruct (word_chars b) as [|c w]; [discriminate Hb|].
  simpl in Hlow. apply andb_prop in Hlow. destruct Hlow as [Hc _].
  simpl. destruct (Ascii.eqb_spec c separator) as [->|_]; [congruence|].
  now rewrite andb_false_r.
Qed.

Lemma scan_loose_step (cap fuel : nat) (b : byte) (f : bool)
  (items : list (byte * bool)) (buf : list byte) :
  (length buf < cap)%nat ->
  scan (S fuel) (loose_text separator ((b, f) :: items)) buf cap separator 4
  = scan fuel (loose_text separator items) (buf ++ [b]) cap separator 4.
Proof.
  intros Hc. cbn [loose_text]. rewrite scan_word by assumption. f_equal.
  destruct f.
  - now apply skip_separator_here.
  - apply skip_separator_loose.
Qed.

Lemma scan_loose_text (cap : nat) (items : list (byte * bool)) :
  forall fuel buf,
    (length items <= fuel)%nat -> (length buf + length items <= cap)%nat ->
    scan fuel (loose_text separator items) buf cap separator 4
    = ScanEnd (buf ++ map fst items) [].
Proof.
  induction items as [|[b f] items IH]; intros fuel buf Hf Hc.
  - rewrite app_nil_r. now destruct fuel.
  - simpl length in Hf, Hc. destruct fuel as [|fuel]; [lia|].
    rewrite scan_loose_step, IH by (rewrite ?length_app; simpl; lia).
    now rewrite <- app_assoc.
Qed.

Lemma scan_loose_overrun (cap : nat) (items : list (byte * bool)) :
  forall fuel buf,
    (length items <= fuel)%nat -> (length buf <= cap)%nat ->
    (cap < length buf + length items)%nat ->
    scan fuel (loose_text separator items) buf cap separator 4 = ScanOverrun.
Proof.
  induction items as [|[b f] items IH]; intros fuel buf Hf Hb Hc.
  - simpl in Hc. lia.
  - simpl length in Hf, Hc. destruct fuel as [|fuel]; [lia|].
    destruct (Nat.lt_ge_cases (length buf) cap) as [Hlt | Hge].
    + rewrite scan_loose_step by assumption.
      apply IH; rewrite ?length_app; simpl; lia.
    + cbn [loose_text]. pose proof (word_chars_length b) as Hw.
      rewrite scan_step.
      * rewrite word_chars_decodes.
        now replace (Nat.ltb (length buf) cap) with false
          by (symmetry; apply Nat.ltb_ge; lia).
      * destruct (word_chars b); [discriminate Hw|discriminate].
      * rewrite length_app. lia.
Qed.

(** The words of a checksummed payload, each followed by the separator or
    not: with [n] words and [k] separators the string has [4 * n + k]
    characters, so the bytes fit when [n <= k + 5]. *)
Lemma decode_loose (in_buf : list byte) (items : list (byte * bool))
  (out : outputs) :
  in_buf <> [] -> map fst items = add_crc crc32 in_buf ->
  decode crc32 (loose_text separator items ++ [NUL]) out separator 4
  = if Nat.leb (length items) (separators items + 5)
    then (Success, {| out_buf := add_crc crc32 in_buf; out_len := length in_buf |})
    else (Overrun, out).
Proof.
  intros Hne Hitems.
  assert (Hn : length items = (length in_buf + 4)%nat)
    by (rewrite <- (length_map fst), Hitems; apply add_crc_length).
  assert (H1 : (1 <= length in_buf)%nat)
    by (destruct in_buf; [contradiction|simpl; lia]).
  assert (Htext : c_text (loose_text separator items ++ [NUL])
                  = loose_text separator items).
  { rewrite c_text_app by apply loose_text_nul_free. apply app_nil_r. }
  assert (Hlen : strlen (loose_text separator items ++ [NUL])
                 = (4 * length items + separators items)%nat).
  { rewrite strlen_terminated by apply loose_text_nul_free.
    apply loose_text_length. }
  destruct (Nat.leb _ _) eqn:E.
  - apply Nat.leb_le in E.
    apply decode_of_scan with (rest := []); [assumption|].
    rewrite Htext, Hlen, <- Hitems.
    apply (scan_loose_text _ items _ []); [lia|]. simpl length.
    assert ((length items - 1 <= (4 * length items + separators items) / (4 + 1))%nat)
      by (apply Nat.div_le_lower_bound; lia).
    lia.
  - apply Nat.leb_gt in E. unfold decode.
    fold (c_text (loose_text separator items ++ [NUL])).
    rewrite Htext, Hlen.
    set (len := (4 * length items + separators items)%nat).
    assert (Hlo : (4 <= len / (4 + 1))%nat)
      by (apply Nat.div_le_lower_bound; unfold len; lia).
    assert (Hhi : (len / (4 + 1) < length items - 1)%nat)
      by (apply Nat.Div0.div_lt_upper_bound; unfold len; lia).
    replace (Nat.ltb (len / (4 + 1) + 1) 5) with false
      by (symmetry; apply Nat.ltb_ge; lia).
    rewrite scan_loose_overrun; [reflexivity| | |].
    + unfold len. lia.
    + simpl. lia.
    + simpl length. lia.
Qed.

End LooseSeparators.

Section LooseStyles.

Variable crc32 : list byte -> N.

(** X14. In the standard and uri styles a valid sequence of [n] words from
    which separators have been left out, so that [k] remain, decodes to its
    payload when [n <= k + 5], and otherwise makes decode write past its
    buffer. *)
Theorem decode_loose_separators (style : bw_style) (in_buf : list byte)
  (items : list (byte * bool)) (out : outputs) :
  style <> bw_minimal -> in_buf <> [] ->
  map fst items = add_crc crc32 in_buf ->
  bytewords_decode crc32 style
    (loose_text (separator_of style) items ++ [NUL]) out
  = if Nat.leb (length items) (separators items + 5)
    then (Success, {| out_buf := add_crc crc32 in_buf; out_len := length in_buf |})
    else (Overrun, out).
Proof.
  intros Hstyle Hne Hitems. rewrite bytewords_decode_decode.
  replace (word_len_of style) with 4%nat by (now destruct style).
  apply decode_loose; try assumption.
  - now apply separator_not_nul.
  - destruct style; try reflexivity; contradiction.
Qed.

End LooseStyles.

Lemma decode_loose_separators_witness :
  bytewords_decode crc32_ieee bw_standard
    (lit "abletied also webslung" ++ [NUL]) no_outputs
  = (Success, {| out_buf := [x00; xd2; x02; xef; x8d]; out_len := 1 |}).
Proof.
  apply (decode_loose_separators crc32_ieee bw_standard [x00]
           [(x00, false); (xd2, true); (x02, true); (xef, false); (x8d, false)]
           no_outputs).
  - discriminate.
  - discriminate.
  - vm_compute. reflexivity.
Defined.

(** ** The words decode_word accepts *)

Section ExactWords.

Lemma char_at_firstn (n : nat) (w : list ascii) (k : nat) :
  (k < n)%nat -> char_at (firstn n w) k = char_at w k.
Proof.
  intros H. unfold char_at. rewrite nth_firstn.
  apply Nat.ltb_lt in H. now rewrite H.
Qed.

Lemma decode_word_firstn (w : list ascii) (word_len : nat) :
  (2 <= word_len)%nat ->
  decode_word (firstn word_len w) word_len = decode_word w word_len.
Proof.
  intros H. unfold decode_word.
  destruct (Nat.eqb_spec word_len 4) as [->|Hw].
  - now rewrite !char_at_firstn by lia.
  - rewrite andb_false_l. now rewrite !char_at_firstn by lia.
Qed.

Lemma tolower_lowercase (c : ascii) :
  lowercase c = true -> tolower (char_at [c] 0) = char_at [c] 0.
Proof.
  unfold lowercase, tolower, char_at. simpl nth. intros H.
  destruct (andb _ _) eqn:E in |- *; lia.
Qed.

(** A token whose letters are, up to case, [letters]: its first characters
    are there and match. *)
Lemma same_letters_of_chars (letters w : list ascii) :
  forallb lowercase letters = true ->
  (forall k, (k < length letters)%nat ->
             tolower (char_at w k) = char_at letters k) ->
  same_letters (firstn (length letters) w) letters.
Proof.
  revert w. induction letters as [|e letters IH]; intros w Hlow H.
  - constructor.
  - simpl in Hlow. apply andb_prop in Hlow. destruct Hlow as [He Hlow].
    destruct w as [|c w].
    + specialize (H 0%nat ltac:(simpl; lia)).
      unfold lowercase in He. unfold char_at, tolower in H. simpl in H. lia.
    + simpl. constructor.
      * rewrite (tolower_lowercase e He). apply (H 0%nat). simpl. lia.
      * apply IH; [assumption|]. intros k Hk.
        apply (H (S k)). simpl. lia.
Qed.

Lemma decode_word_4_exact (w : list ascii) (i : byte) :
  decode_word w 4 = Some i <-> same_letters (firstn 4 w) (word_chars i).
Proof.
  pose proof (Byte.to_nat_bounded i) as Hi. split.
  - intros H. apply decode_word_4 in H. destruct H as (Hg & Hv & M1 & M2).
    destruct (entry_of_grid _ _ Hg ltac:(lia)) as (_ & E0 & E3).
    rewrite Hv, Nat2Z.id in E0, E3. unfold coord in E0, E3.
    rewrite <- word_chars_entry in *.
    rewrite <- (word_chars_length i).
    apply same_letters_of_chars; [apply word_chars_lowercase|].
    rewrite word_chars_length. intros k Hk.
    destruct k as [|[|[|[|k]]]]; try lia.
  - intros H. rewrite <- (decode_word_firstn w 4) by lia.
    rewrite (decode_word_case _ _ 4 (same_letters_char_at _ _ H)).
    rewrite <- (app_nil_r (word_chars i)). apply word_chars_decodes.
Qed.

Lemma decode_word_2_exact (w : list ascii) (i : byte) :
  decode_word w 2 = Some i <-> same_letters (firstn 2 w) (minimal_chars i).
Proof.
  pose proof (Byte.to_nat_bounded i) as Hi. split.
  - intros H. apply decode_word_2 in H; [|discriminate].
    destruct H as (Hg & Hv).
    destruct (entry_of_grid _ _ Hg ltac:(lia)) as (_ & E0 & E3).
    rewrite Hv, Nat2Z.id in E0, E3. unfold coord in E0, E3.
    change 2%nat with (length (minimal_chars i)).
    apply same_letters_of_chars; [apply minimal_chars_lowercase|].
    intros k Hk. simpl in Hk.
    assert (M0 : char_at (minimal_chars i) 0 = char_at (entry (Byte.to_nat i)) 0)
      by (destruct i; vm_compute; reflexivity).
    assert (M1 : char_at (minimal_chars i) 1 = char_at (entry (Byte.to_nat i)) 3)
      by (destruct i; vm_compute; reflexivity).
    destruct k as [|[|k]]; try lia.
  - intros H. rewrite <- (decode_word_firstn w 2) by lia.
    rewrite (decode_word_case _ _ 2 (same_letters_char_at _ _ H)).
    rewrite <- (app_nil_r (minimal_chars i)). apply minimal_chars_decodes.
Qed.

(** X15. [decode_word] accepts exactly the words of the table, up to letter
    case: a token resolves to [i] if and only if its first four letters are
    those of word [i] (its first two, in the two-letter form, the first and
    last letter of word [i]). *)
Theorem decode_word_exact (w : list ascii) (i : byte) :
  (decode_word w 4 = Some i <-> same_letters (firstn 4 w) (word_chars i)) /\
  (decode_word w 2 = Some i <-> same_letters (firstn 2 w) (minimal_chars i)).
Proof. split; [apply decode_word_4_exact|apply decode_word_2_exact]. Qed.

End ExactWords.

Lemma decode_word_exact_witness :
  decode_word (lit "WoLf pack") 4 = Some xf3.
Proof.
  destruct (decode_word_exact (lit "WoLf pack") xf3) as [[_ H] _].
  apply H. repeat constructor.
Defined.

(** ** The minimal style never decodes *)

Section MinimalStyle.

Variable crc32 : list byte -> N.

(** Without a separator every round takes exactly [word_len] characters. *)
Lemma scan_consumes (word_len cap fuel : nat) :
  forall in_p buf buf' rest,
    (0 < word_len)%nat ->
    scan fuel in_p buf cap NUL word_len = ScanEnd buf' rest ->
    (length buf <= length buf')%nat /\
    length in_p = (word_len * (length buf' - length buf) + length rest)%nat /\
    (length rest < word_len)%nat.
Proof.
  induction fuel as [|fuel IH]; intros in_p buf buf' rest Hw H.
  - destruct (Nat.lt_ge_cases (length in_p) word_len) as [Hl | Hl].
    + rewrite scan_end in H by assumption. injection H as <- <-.
      rewrite Nat.sub_diag. lia.
    + destruct in_p; [simpl in Hl; lia|]. cbn [scan] in H.
      apply Nat.leb_le in Hl. rewrite Hl in H. discriminate.
  - destruct (Nat.lt_ge_cases (length in_p) word_len) as [Hl | Hl].
    + rewrite scan_end in H by assumption. injection H as <- <-.
      rewrite Nat.sub_diag. lia.
    + rewrite scan_step in H; [|intros ->; simpl in Hl; lia|assumption].
      destruct (decode_word in_p word_len); [|discriminate].
      destruct (Nat.ltb _ _); [|discriminate].
      rewrite skip_separator_none in H.
      apply IH in H; [|assumption].
      rewrite length_app, length_skipn in H. simpl length in H.
      destruct H as (G & C & R). split; [lia|]. split; [|assumption]. nia.
Qed.

(** X16. In the minimal style decode never returns [true]: five or more
    two-letter codes take at least [2 * n] characters, for which the buffer
    has room for [2 * n / 3 + 1 < n] bytes only, so every call returns
    [false] or writes past the buffer. *)
Theorem minimal_never_succeeds (in_string : list ascii) (out : outputs) :
  fst (bytewords_decode crc32 bw_minimal in_string out) <> Success.
Proof.
  unfold bytewords_decode, decode. fold (c_text in_string).
  destruct (Nat.ltb _ 5); [discriminate|].
  destruct (scan _ _ _ _ _ _) as [buf rest| | |] eqn:E; try discriminate.
  destruct (Nat.ltb (length buf) 5) eqn:Hn; [discriminate|].
  apply Nat.ltb_ge in Hn. exfalso.
  pose proof (scan_within_capacity _ _ _ _ _ _ _ _ E (Nat.le_0_l _)) as Hcap.
  apply scan_consumes in E; [|lia]. destruct E as (_ & Hlen & Hrest).
  rewrite c_text_length in Hlen. simpl length in Hlen.
  pose proof (Nat.Div0.mul_div_le (strlen in_string) (2 + 1)). lia.
Qed.

End MinimalStyle.

(** ** The strings decode accepts *)

Section AcceptedStrings.

Variable crc32 : list byte -> N.

Lemma same_letters_refl (s : list ascii) : same_letters s s.
Proof. induction s; constructor; [reflexivity|assumption]. Qed.

Lemma skip_separator_cases (separator : ascii) (in_p : list ascii) :
  (skip_separator separator in_p = in_p) \/
  (in_p = separator :: skip_separator separator in_p).
Proof.
  destruct in_p as [|c in_p]; [now left|]. simpl.
  destruct (negb _) eqn:N; simpl; [|now left].
  destruct (Ascii.eqb_spec c separator) as [->|_]; [now right|now left].
Qed.

(** What the loop resolves is what it read: the bytes of a finished scan are
    the indices of the words, which may each be followed by the separator,
    that make up the text up to case; fewer than four characters are left. *)
Lemma scan_reads_words (separator : ascii) (cap fuel : nat) :
  forall in_p buf buf' rest,
    scan fuel in_p buf cap separator 4 = ScanEnd buf' rest ->
    exists items,
      buf' = (buf ++ map fst items)%list /\
      same_letters in_p (loose_text separator items ++ rest) /\
      (length rest < 4)%nat.
Proof.
  induction fuel as [|fuel IH]; intros in_p buf buf' rest H.
  - destruct (Nat.lt_ge_cases (length in_p) 4) as [Hl | Hl].
    + rewrite scan_end in H by assumption. injection H as <- <-.
      exists []. rewrite app_nil_r. split; [reflexivity|].
      split; [apply same_letters_refl|assumption].
    + destruct in_p; [simpl in Hl; lia|]. cbn [scan] in H.
      apply Nat.leb_le in Hl. rewrite Hl in H. discriminate.
  - destruct (Nat.lt_ge_cases (length in_p) 4) as [Hl | Hl].
    + rewrite scan_end in H by assumption. injection H as <- <-.
      exists []. rewrite app_nil_r. split; [reflexivity|].
      split; [apply same_letters_refl|assumption].
    + rewrite scan_step in H; [|intros ->; simpl in Hl; lia|assumption].
      destruct (decode_word in_p 4) as [i|] eqn:E; [|discriminate].
      destruct (Nat.ltb _ _); [|discriminate].
      apply IH in H. destruct H as (items & Hbuf & Hsame & Hrest).
      apply decode_word_4_exact in E.
      rewrite <- (firstn_skipn 4 in_p).
      destruct (skip_separator_cases separator (skipn 4 in_p)) as [S | S].
      * exists ((i, false) :: items).
        split; [rewrite Hbuf, <- app_assoc; reflexivity|].
        split; [|assumption]. cbn [loose_text]. rewrite <- app_assoc.
        apply Forall2_app; [exact E|]. simpl app. now rewrite <- S.
      * exists ((i, true) :: items).
        split; [rewrite Hbuf, <- app_assoc; reflexivity|].
        split; [|assumption]. cbn [loose_text]. rewrite <- !app_assoc.
        apply Forall2_app; [exact E|]. rewrite S. simpl app.
        constructor; [reflexivity|exact Hsame].
Qed.

(** X17. In the standard and uri styles decode accepts only words of the
    table: when it returns [true], the string is, up to letter case, the
    words of the returned buffer, each followed by the separator or not,
    and then fewer than four more characters. *)
Theorem decode_accepts_only_words (style : bw_style) (in_string : list ascii)
  (out o : outputs) :
  style <> bw_minimal ->
  bytewords_decode crc32 style in_string out = (Success, o) ->
  exists items rest,
    map fst items = out_buf o /\
    same_letters (c_text in_string)
                 (loose_text (separator_of style) items ++ rest) /\
    (length rest < 4)%nat.
Proof.
  intros Hstyle. rewrite bytewords_decode_decode.
  replace (word_len_of style) with 4%nat by (now destruct style).
  unfold decode. fold (c_text in_string).
  destruct (Nat.ltb _ 5); [discriminate|].
  destruct (scan _ _ _ _ _ _) as [buf rest| | |] eqn:E; try discriminate.
  destruct (Nat.ltb _ 5); [discriminate|].
  destruct (negb _); [discriminate|].
  intros [= <-]. simpl out_buf.
  apply scan_reads_words in E. destruct E as (items & Hbuf & Hsame & Hrest).
  exists items, rest. now repeat split.
Qed.

End AcceptedStrings.

Lemma decode_accepts_only_words_witness :
  exists items rest,
    map fst items = [x00; xd2; x02; xef; x8d] /\
    same_letters (c_text (lit "ABLE tied alsowebs lung!?"))
                 (loose_text " "%char items ++ rest) /\
    (length rest < 4)%nat.
Proof.
  apply (decode_accepts_only_words crc32_ieee bw_standard
           (lit "ABLE tied alsowebs lung!?") no_outputs
           {| out_buf := [x00; xd2; x02; xef; x8d]; out_len := 1 |}).
  - discriminate.
  - vm_compute. reflexivity.
Defined.

Lemma encoding_without_one_separator_witness :
  bytewords_encode crc32_ieee bw_standard [x00]
  = (lit "able tied" ++ " "%char :: lit "also webs lung" ++ [NUL])%list /\
  returned_payload
    (bytewords_decode crc32_ieee bw_standard
       (lit "able tied" ++ lit "also webs lung" ++ [NUL]) no_outputs)
  = Some [x00].
Proof.
  apply (encoding_without_one_separator crc32_ieee bw_standard [x00]
           [x00; xd2] [x02; xef; x8d] no_outputs);
    try discriminate.
  vm_compute. reflexivity.
Defined.
